(** * Shot continuity and pipeline state of the music-video engine

    A shallow embedding of the continuity lookups, the request shaping and
    the per-shot status updates of the application component (App.tsx), of
    the storyboard view (components/Storyboard.tsx) and of the service layer
    (services/geminiService.ts), with the data model of types.ts.

    Conventions.  A JavaScript value that may be [undefined] or [null] is an
    [option]; array indices are integers ([Z]), so that [a[i - 1]] at [i = 0]
    is the out-of-range read the source performs; asynchronous handlers are
    functions from the state snapshot they close over to the list of setter
    and host calls they issue, and every setter call is applied to the live
    state by [App.apply_action]. *)

From stdpp Require Import base option list sets strings.
From Stdlib Require Import ZArith QArith.

Local Open Scope string_scope.
Local Open Scope list_scope.
Local Open Scope Z_scope.

(** ** JavaScript primitives used by the sources *)
Module JS.

(** Truthiness of an optional string: [undefined] and the empty string are
    falsy. *)
Definition truthy (v : option string) : bool :=
  match v with
  | Some s => negb (String.eqb s EmptyString)
  | None => false
  end.

(** [a || b] on optional strings. *)
Definition or_else (a : option string) (b : string) : string :=
  match a with
  | Some s => if String.eqb s EmptyString then b else s
  | None => b
  end.

(** [arr[i]]: [undefined] outside [0 .. length - 1]. *)
Definition get {A} (arr : list A) (i : Z) : option A :=
  if i <? 0 then None else arr !! Z.to_nat i.

(** [arr.length]. *)
Definition len {A} (arr : list A) : Z := Z.of_nat (length arr).

(** [arr.findIndex(p)]: index of the first match, [-1] when there is none. *)
Definition findIndex {A} (P : A → Prop) `{∀ x, Decision (P x)}
    (arr : list A) : Z :=
  match list_find P arr with
  | Some (i, _) => Z.of_nat i
  | None => -1
  end.

(** [arr.find(p)]. *)
Definition find {A} (P : A → Prop) `{∀ x, Decision (P x)}
    (arr : list A) : option A :=
  snd <$> list_find P arr.

(** [hay.includes(needle)]. *)
Fixpoint includes (needle hay : string) : bool :=
  String.prefix needle hay ||
  match hay with
  | EmptyString => false
  | String _ rest => includes needle rest
  end.

(** [s.split(c)] for a one-character separator. *)
Fixpoint split (c : Ascii.ascii) (s : string) : list string :=
  match s with
  | EmptyString => [EmptyString]
  | String a rest =>
      if Ascii.eqb a c then EmptyString :: split c rest
      else match split c rest with
           | h :: t => String a h :: t
           | [] => [String a EmptyString]
           end
  end.

Definition comma : Ascii.ascii := Ascii.Ascii false false true true false true false false.

(** [url.split(',')[1]]: the payload of a data URL. *)
Definition payload (url : string) : option string := split comma url !! 1%nat.

(** Interpolation [`${v}`] of a possibly undefined string. *)
Definition interpolate (v : option string) : string := default "undefined" v.

End JS.

(** ** types.ts *)

Inductive GenerationStatus := IDLE | LOADING | SUCCESS | ERROR.
Inductive VideoMode := montage | cinematic.

Global Instance GenerationStatus_eq_dec : EqDecision GenerationStatus.
Proof. solve_decision. Defined.
Global Instance VideoMode_eq_dec : EqDecision VideoMode.
Proof. solve_decision. Defined.

Module VideoShot.
Record t := mk {
  id : string;
  duration : Q;
  visualPrompt : string;
  motionPrompt : string;
  imageUrl : option string;
  imageStatus : GenerationStatus;
  videoUrl : option string;
  videoStatus : GenerationStatus;
  useNextAsEndFrame : bool;
  error : option string
}.
End VideoShot.

Module VideoScene.
Record t := mk {
  id : string;
  sectionLabel : string;
  startTime : string;
  endTime : string;
  lyrics : string;
  narrativeDescription : string;
  shots : list VideoShot.t
}.
End VideoScene.

Module VisualSuggestions.
Record t := mk {
  physicalDescription : string;
  artStyle : string;
  colorPalette : string
}.
End VisualSuggestions.

Module ProjectConcept.
(** [musicalStructure] is not read by the modelled operations. *)
Record t := mk {
  title : string;
  language : string;
  deity : string;
  mood : string;
  theme : string;
  visualSuggestions : option VisualSuggestions.t
}.
End ProjectConcept.

Module VisualIdentity.
Record t := mk {
  styleDescription : string;
  characterSheet : string;
  colorPalette : string;
  videoMode : VideoMode;
  heroImage : option string
}.
End VisualIdentity.

Module ProjectAnalysis.
Record t := mk {
  concept : ProjectConcept.t;
  visualIdentity : VisualIdentity.t;
  targetDuration : Q
}.
End ProjectAnalysis.

(** [Partial<VideoShot>]: the keys present in an update object.  An optional
    field that is present may carry [undefined] ([Some None]). *)
Module PartialShot.
Record t := mk {
  visualPrompt : option string;
  motionPrompt : option string;
  imageUrl : option (option string);
  imageStatus : option GenerationStatus;
  videoUrl : option (option string);
  videoStatus : option GenerationStatus;
  useNextAsEndFrame : option bool;
  error : option (option string)
}.

Definition empty : t := mk None None None None None None None None.

(** [{ ...shot, ...updates }] *)
Definition spread (shot : VideoShot.t) (updates : t) : VideoShot.t :=
  VideoShot.mk
    (VideoShot.id shot)
    (VideoShot.duration shot)
    (default (VideoShot.visualPrompt shot) (visualPrompt updates))
    (default (VideoShot.motionPrompt shot) (motionPrompt updates))
    (default (VideoShot.imageUrl shot) (imageUrl updates))
    (default (VideoShot.imageStatus shot) (imageStatus updates))
    (default (VideoShot.videoUrl shot) (videoUrl updates))
    (default (VideoShot.videoStatus shot) (videoStatus updates))
    (default (VideoShot.useNextAsEndFrame shot) (useNextAsEndFrame updates))
    (default (VideoShot.error shot) (error updates)).
End PartialShot.

(** The settled value of a promise: rejected with an error whose [message]
    may be missing, or resolved. *)
Inductive Outcome (A : Type) :=
| Rejected (message : option string)
| Resolved (value : A).
Arguments Rejected {A} message.
Arguments Resolved {A} value.

(** ** services/geminiService.ts *)
Module GeminiService.

(** *** planScenes *)

(** The parsed planning response.  The identifiers and a scene's shot list
    are the fields the source treats as possibly missing ([s.id || ...],
    [s.shots || []]).  The parsed text is not validated against
    [responseSchema], and [planScenes] spreads each upstream object into its
    result: an upstream shot may carry [imageUrl], [videoUrl] and [error],
    which the schema does not list and which the spread keeps. *)
Module RawShot.
Record t := mk {
  id : option string;
  duration : Q;
  visualPrompt : string;
  motionPrompt : string;
  imageUrl : option string;
  videoUrl : option string;
  error : option string
}.
End RawShot.

Module RawScene.
Record t := mk {
  id : option string;
  sectionLabel : string;
  startTime : string;
  endTime : string;
  lyrics : string;
  narrativeDescription : string;
  shots : option (list RawShot.t)
}.
End RawScene.

(** What [ai.models.generateContent] and [JSON.parse] deliver to
    [planScenes]: a rejection; an empty [response.text]; a text on which
    [JSON.parse] throws or whose [scenes] cannot be mapped at all; a scene
    array in which the callback of [data.scenes.map] throws at some element
    (a [null] scene or shot, shots that are no array), [mapped] being the
    elements evaluated before the throw, the last of them with the shots
    reached in it; or the parsed scene list. *)
Inductive PlanResponse :=
| PlanRejected (message : option string)
| PlanNoText
| PlanMalformed (message : option string)
| PlanThrows (mapped : list RawScene.t) (message : option string)
| PlanData (scenes : list RawScene.t).

(** Computations that draw identifiers: the state is the number of calls
    of [Math.random] made so far. *)
Definition Gen (A : Type) : Type := nat → A * nat.

Definition ret {A} (a : A) : Gen A := λ n, (a, n).
Definition bind {A B} (m : Gen A) (k : A → Gen B) : Gen B :=
  λ n, let (a, n') := m n in k a n'.

Notation "'let*' x := m 'in' k" := (bind m (λ x, k))
  (at level 10, x name, m at level 100, k at level 200, only parsing).

(** [arr.map(f)] for an [f] that draws identifiers, elements in order. *)
Fixpoint mapG {A B} (f : A → Gen B) (arr : list A) : Gen (list B) :=
  match arr with
  | [] => ret []
  | a :: rest =>
      let* b := f a in
      let* bs := mapG f rest in
      ret (b :: bs)
  end.

Section Plan.
(** [randomId k] is the value of
    [Math.random().toString(36).substr(2, 9)] at the [k]-th call. *)
Variable randomId : nat → string.

Definition fresh : Gen string := λ n, (randomId n, S n).

(** [id || Math.random().toString(36).substr(2, 9)] *)
Definition idOrFresh (id : option string) : Gen string :=
  match id with
  | Some s => if String.eqb s EmptyString then fresh else ret s
  | None => fresh
  end.

Definition planShot (videoMode : VideoMode) (shot : RawShot.t)
    : Gen VideoShot.t :=
  let* id := idOrFresh (RawShot.id shot) in
  ret (VideoShot.mk id
         (RawShot.duration shot)
         (RawShot.visualPrompt shot)
         (RawShot.motionPrompt shot)
         (RawShot.imageUrl shot) IDLE
         (RawShot.videoUrl shot) IDLE
         (bool_decide (videoMode = cinematic))
         (RawShot.error shot)).

Definition planScene (videoMode : VideoMode) (s : RawScene.t)
    : Gen VideoScene.t :=
  let* id := idOrFresh (RawScene.id s) in
  let* shots := mapG (planShot videoMode) (default [] (RawScene.shots s)) in
  ret (VideoScene.mk id
         (RawScene.sectionLabel s)
         (RawScene.startTime s)
         (RawScene.endTime s)
         (RawScene.lyrics s)
         (RawScene.narrativeDescription s)
         shots).

(** [data.scenes.map(...)], the last statement of [planScenes]. *)
Definition mapScenes (analysis : ProjectAnalysis.t)
    (scenes : list RawScene.t) : Gen (list VideoScene.t) :=
  mapG (planScene (VisualIdentity.videoMode
                     (ProjectAnalysis.visualIdentity analysis))) scenes.

Definition planScenes (response : PlanResponse)
    (analysis : ProjectAnalysis.t) : Gen (Outcome (list VideoScene.t)) :=
  match response with
  | PlanRejected message => ret (Rejected message)
  | PlanNoText => ret (Rejected (Some "Failed to plan scenes"))
  | PlanMalformed message => ret (Rejected message)
  | PlanThrows mapped message =>
      let* _ := mapScenes analysis mapped in
      ret (Rejected message)
  | PlanData scenes =>
      let* planned := mapScenes analysis scenes in
      ret (Resolved planned)
  end.
End Plan.

(** *** generateShotImage *)

Inductive Part :=
| InlineData (mimeType : string) (data : option string)
| Text (text : string).

Definition newline : string := String (Ascii.Ascii false true false true false false false false) EmptyString.
Definition dquote : string := String (Ascii.Ascii false true false false false true false false) EmptyString.

(** A multi-line template literal, one list element per source line. *)
Definition template (lines : list string) : string :=
  String.concat newline lines.

Definition continuityInstruction : string :=
  "- CONTINUITY: This is the NEXT FRAME after the " +:+ dquote +:+
  "Previous Shot" +:+ dquote +:+
  " image provided. Match the lighting and environment exactly.".

Definition textPrompt (shot : VideoShot.t) (analysis : ProjectAnalysis.t)
    (narrative : string) (previousShotImageUrl : option string) : string :=
  let visualIdentity := ProjectAnalysis.visualIdentity analysis in
  let concept := ProjectAnalysis.concept analysis in
  template [
    EmptyString;
    "    Create a cinematic film still.";
    "    ";
    "    SCENE CONTEXT:";
    "    - Subject: " +:+ VisualIdentity.characterSheet visualIdentity
      +:+ " (" +:+ ProjectConcept.deity concept +:+ ").";
    "    - Action/Moment: " +:+ VideoShot.visualPrompt shot +:+ ".";
    "    - Narrative Meaning: " +:+ narrative +:+ ".";
    "    ";
    "    AESTHETICS:";
    "    - Art Style: " +:+ VisualIdentity.styleDescription visualIdentity +:+ ".";
    "    - Mood/Atmosphere: " +:+ ProjectConcept.mood concept +:+ ".";
    "    ";
    "    TECHNICAL VISUALS:";
    "    - Lighting: Cinematic, natural, source-motivated.";
    "    - Camera: High resolution, film texture, professional color grading.";
    "    ";
    "    INSTRUCTIONS:";
    "    - Use the provided HERO IMAGE as the strict reference for the character's face, costume, and the overall color grading.";
    "    " +:+ (if JS.truthy previousShotImageUrl
               then continuityInstruction else EmptyString);
    "    ";
    "    Make it look like a high-budget movie production. No text, no watermark.";
    "  "
  ].

(** An image sent as reference: [{ inlineData: { mimeType: 'image/png',
    data: url.split(',')[1] } }] when [url] is truthy, nothing otherwise. *)
Definition referencePart (url : option string) : list Part :=
  match url with
  | Some u => if String.eqb u EmptyString then [] else [InlineData "image/png" (JS.payload u)]
  | None => []
  end.

(** The [parts] array [generateShotImage] sends. *)
Definition shotImageParts (shot : VideoShot.t) (analysis : ProjectAnalysis.t)
    (lyrics narrative : string) (previousShotImageUrl : option string)
    : list Part :=
  referencePart (VisualIdentity.heroImage (ProjectAnalysis.visualIdentity analysis))
  ++ referencePart previousShotImageUrl
  ++ [Text (textPrompt shot analysis narrative previousShotImageUrl)].

(** A part of the image model's answer: its [inlineData.data], when the
    part has [inlineData]. *)
Definition ResponsePart : Type := option (option string).

(** The answer of the image model: a rejection, or
    [response.candidates?.[0]?.content?.parts || []]. *)
Definition ImageResponse : Type := Outcome (list ResponsePart).

Definition generateShotImage (api : list Part → ImageResponse)
    (shot : VideoShot.t) (analysis : ProjectAnalysis.t)
    (lyrics narrative : string) (previousShotImageUrl : option string)
    : Outcome string :=
  match api (shotImageParts shot analysis lyrics narrative previousShotImageUrl) with
  | Rejected message => Rejected message
  | Resolved parts =>
      match JS.find (λ part : ResponsePart, is_Some part) parts with
      | Some (Some data) =>
          Resolved ("data:image/png;base64," +:+ JS.interpolate data)
      | _ => Rejected (Some "No image generated")
      end
  end.

(** *** generateShotVideo *)

Module Frame.
Record t := mk { imageBytes : option string; mimeType : string }.
End Frame.

Module VideoRequest.
Record t := mk {
  model : string;
  prompt : string;
  image : Frame.t;
  numberOfVideos : Z;
  resolution : string;
  aspectRatio : string;
  lastFrame : option Frame.t
}.
End VideoRequest.

Definition shotVideoRequest (shot : VideoShot.t) (imageBase64 : string)
    (nextShotImageBase64 : option string) : VideoRequest.t :=
  VideoRequest.mk
    "veo-3.1-fast-generate-preview"
    (JS.or_else (Some (VideoShot.motionPrompt shot)) "Cinematic camera movement")
    (Frame.mk (JS.payload imageBase64) "image/png")
    1 "720p" "16:9"
    (if VideoShot.useNextAsEndFrame shot then
       match nextShotImageBase64 with
       | Some next =>
           if String.eqb next EmptyString then None
           else Some (Frame.mk (JS.payload next) "image/png")
       | None => None
       end
     else None).

(** What the video model does with a request: it rejects it, the polled
    operation never reports [done], or it completes with an optional
    [video.uri] whose download then settles. *)
Inductive VideoOperation :=
| OperationRejected (message : option string)
| OperationPending
| OperationDone (uri : option string) (objectUrl : Outcome string).

(** [None]: the polling loop does not end. *)
Definition generateShotVideo (api : VideoRequest.t → VideoOperation)
    (shot : VideoShot.t) (imageBase64 : string)
    (nextShotImageBase64 : option string) : option (Outcome string) :=
  match api (shotVideoRequest shot imageBase64 nextShotImageBase64) with
  | OperationRejected message => Some (Rejected message)
  | OperationPending => None
  | OperationDone uri objectUrl =>
      if JS.truthy uri then Some objectUrl
      else Some (Rejected (Some "Video generation failed"))
  end.

End GeminiService.

(** ** App.tsx *)
Module App.

(** [ProjectState] without [chatHistory], which no modelled handler reads;
    [audioFile] is the uploaded file, by name. *)
Module ProjectState.
Record t := mk {
  audioFile : option string;
  audioUrl : option string;
  analysis : option ProjectAnalysis.t;
  scenes : list VideoScene.t
}.
End ProjectState.

(** The component state the modelled handlers read or write. *)
Record State := mkState {
  state : ProjectState.t;
  apiKeyVerified : bool;
  error : option string
}.

Definition emptyProject : ProjectState.t := ProjectState.mk None None None [].

Definition initialState : State := mkState emptyProject false None.

(** The host page: [window.aistudio.hasSelectedApiKey()] when that function
    exists, whether [window.aistudio.openSelectKey] exists, and how the
    promise of [window.aistudio.openSelectKey()] settles when it is called. *)
Record Host := mkHost {
  selectedApiKey : option bool;
  canOpenSelectKey : bool;
  openSelectKey : Outcome unit
}.

(** The updater [updateShot] passes to [setState]. *)
Definition updateShot (sceneId shotId : string) (updates : PartialShot.t)
    (prev : ProjectState.t) : ProjectState.t :=
  ProjectState.mk
    (ProjectState.audioFile prev)
    (ProjectState.audioUrl prev)
    (ProjectState.analysis prev)
    (map (λ scene,
            if decide (VideoScene.id scene ≠ sceneId) then scene
            else VideoScene.mk
                   (VideoScene.id scene)
                   (VideoScene.sectionLabel scene)
                   (VideoScene.startTime scene)
                   (VideoScene.endTime scene)
                   (VideoScene.lyrics scene)
                   (VideoScene.narrativeDescription scene)
                   (map (λ shot,
                           if decide (VideoShot.id shot = shotId)
                           then PartialShot.spread shot updates
                           else shot)
                        (VideoScene.shots scene)))
         (ProjectState.scenes prev)).

Definition findScene (st : ProjectState.t) (sceneId : string)
    : option VideoScene.t :=
  JS.find (λ s, VideoScene.id s = sceneId) (ProjectState.scenes st).

Definition findShot (st : ProjectState.t) (sceneId shotId : string)
    : option VideoShot.t :=
  scene ← findScene st sceneId;
  JS.find (λ s, VideoShot.id s = shotId) (VideoScene.shots scene).

(** [state.scenes.forEach(s => allShots.push(...s.shots))] *)
Definition allShots (scenes : list VideoScene.t) : list VideoShot.t :=
  foldl (λ acc s, acc ++ VideoScene.shots s) [] scenes.

Definition getPreviousShot (st : ProjectState.t) (sceneId shotId : string)
    : option VideoShot.t :=
  let allShots := allShots (ProjectState.scenes st) in
  let idx := JS.findIndex (λ s, VideoShot.id s = shotId) allShots in
  if 0 <? idx then JS.get allShots (idx - 1) else None.

Definition getNextShot (st : ProjectState.t) (sceneId shotId : string)
    : option VideoShot.t :=
  let allShots := allShots (ProjectState.scenes st) in
  let idx := JS.findIndex (λ s, VideoShot.id s = shotId) allShots in
  if negb (idx =? -1) && (idx <? JS.len allShots - 1)
  then JS.get allShots (idx + 1) else None.

(** The calls a handler issues, in order: state setters, host calls and
    requests to the generative service. *)
Inductive Action :=
| SetAudio (file audioUrl : string)
| SetAnalysisAndScenes (analysis : ProjectAnalysis.t) (scenes : list VideoScene.t)
| SetAnalysis (analysis : ProjectAnalysis.t)
| ResetProject
| UpdateShot (sceneId shotId : string) (updates : PartialShot.t)
| SetError (message : option string)
| SetApiKeyVerified (verified : bool)
| OpenSelectKey
| ConsoleError (message : option string)
| RequestImage (parts : list GeminiService.Part)
| RequestVideo (request : GeminiService.VideoRequest.t).

Definition withProject (st : State) (f : ProjectState.t → ProjectState.t)
    : State :=
  mkState (f (state st)) (apiKeyVerified st) (error st).

(** The effect of one call on the live state. *)
Definition apply_action (st : State) (a : Action) : State :=
  match a with
  | SetAudio file audioUrl =>
      withProject st (λ prev,
        ProjectState.mk (Some file) (Some audioUrl)
          (ProjectState.analysis prev) (ProjectState.scenes prev))
  | SetAnalysisAndScenes analysis scenes =>
      withProject st (λ prev,
        ProjectState.mk (ProjectState.audioFile prev)
          (ProjectState.audioUrl prev) (Some analysis) scenes)
  | SetAnalysis analysis =>
      withProject st (λ prev,
        ProjectState.mk (ProjectState.audioFile prev)
          (ProjectState.audioUrl prev) (Some analysis)
          (ProjectState.scenes prev))
  | ResetProject => withProject st (λ _, emptyProject)
  | UpdateShot sceneId shotId updates =>
      withProject st (updateShot sceneId shotId updates)
  | SetError message => mkState (state st) (apiKeyVerified st) message
  | SetApiKeyVerified verified => mkState (state st) verified (error st)
  | OpenSelectKey | ConsoleError _ | RequestImage _ | RequestVideo _ => st
  end.

(** A handler that runs without another one interleaved. *)
Definition run (st : State) (actions : list Action) : State :=
  foldl apply_action st actions.

Definition checkKey (host : Host) : list Action :=
  match selectedApiKey host with
  | Some hasKey => [SetApiKeyVerified hasKey]
  | None => [SetApiKeyVerified true]
  end.

Definition handleSelectKey (host : Host) : list Action :=
  if canOpenSelectKey host then
    OpenSelectKey ::
    match openSelectKey host with
    | Resolved _ => [SetApiKeyVerified true]
    | Rejected _ => []
    end
  else [].

(** Whether the promise of [handleSelectKey] is rejected: the dialog is
    opened and its promise rejects, so that an [await handleSelectKey()]
    throws. *)
Definition selectKeyRejects (host : Host) : bool :=
  canOpenSelectKey host
  && match openSelectKey host with
     | Resolved _ => false
     | Rejected _ => true
     end.

Definition initialAnalysis (concept : ProjectConcept.t) : ProjectAnalysis.t :=
  let suggestions := ProjectConcept.visualSuggestions concept in
  ProjectAnalysis.mk concept
    (VisualIdentity.mk
       (JS.or_else (VisualSuggestions.artStyle <$> suggestions)
          "Hyper-realistic, cinematic lighting, shot on 35mm film.")
       (JS.or_else (VisualSuggestions.physicalDescription <$> suggestions)
          ("Divine appearance of " +:+ ProjectConcept.deity concept
           +:+ ", traditional attire, ethereal aura."))
       (JS.or_else (VisualSuggestions.colorPalette <$> suggestions)
          "Gold, Deep Blue, Warm Orange")
       montage None)
    8%Q.

Definition handleFileUpload (file audioUrl : string)
    (concept : Outcome ProjectConcept.t) : list Action :=
  [SetError None; SetAudio file audioUrl] ++
  match concept with
  | Resolved c => [SetAnalysisAndScenes (initialAnalysis c) []]
  | Rejected message =>
      [SetError (Some (JS.or_else message "Failed to analyze audio."))]
  end.

Definition handleRegenerateStructure (randomId : nat → string) (calls : nat)
    (response : GeminiService.PlanResponse) (st : State)
    (updatedAnalysis : ProjectAnalysis.t) : list Action :=
  match ProjectState.audioFile (state st) with
  | None => []
  | Some _ =>
      SetError None ::
      match fst (GeminiService.planScenes randomId response updatedAnalysis calls) with
      | Resolved scenes => [SetAnalysisAndScenes updatedAnalysis scenes]
      | Rejected message =>
          [SetError (Some ("Failed to regenerate structure: "
                           +:+ JS.interpolate message))]
      end
  end.

Definition handleAnalysisConfirmed (updatedAnalysis : ProjectAnalysis.t)
    : list Action :=
  [SetAnalysis updatedAnalysis].

Definition imageLoading : PartialShot.t :=
  PartialShot.mk None None None (Some LOADING) None None None (Some None).
Definition imageSuccess (imageUrl : string) : PartialShot.t :=
  PartialShot.mk None None (Some (Some imageUrl)) (Some SUCCESS) None None None None.
Definition imageError : PartialShot.t :=
  PartialShot.mk None None None (Some ERROR) None None None None.

Definition videoLoading : PartialShot.t :=
  PartialShot.mk None None None None None (Some LOADING) None (Some None).
Definition videoSuccess (videoUrl : string) : PartialShot.t :=
  PartialShot.mk None None None None (Some (Some videoUrl)) (Some SUCCESS) None None.
Definition videoError : PartialShot.t :=
  PartialShot.mk None None None None None (Some ERROR) None None.

(** The [prevShotUrl] of [handleGenerateImage]. *)
Definition prevShotUrl (st : ProjectState.t) (analysis : ProjectAnalysis.t)
    (sceneId shotId : string) : option string :=
  match getPreviousShot st sceneId shotId with
  | Some prevShot =>
      if bool_decide (VisualIdentity.videoMode
                        (ProjectAnalysis.visualIdentity analysis) = cinematic)
         && JS.truthy (VideoShot.imageUrl prevShot)
      then VideoShot.imageUrl prevShot else None
  | None => None
  end.

Definition handleGenerateImage
    (api : list GeminiService.Part → GeminiService.ImageResponse)
    (st : State) (sceneId shotId : string) : list Action :=
  match findShot (state st) sceneId shotId, ProjectState.analysis (state st) with
  | Some shot, Some analysis =>
      match findScene (state st) sceneId with
      | None => []
      | Some scene =>
          let prev := prevShotUrl (state st) analysis sceneId shotId in
          let lyrics := VideoScene.lyrics scene in
          let narrative := VideoScene.narrativeDescription scene in
          [UpdateShot sceneId shotId imageLoading;
           RequestImage (GeminiService.shotImageParts shot analysis lyrics narrative prev)]
          ++ match GeminiService.generateShotImage api shot analysis lyrics narrative prev with
             | Resolved imageUrl =>
                 [UpdateShot sceneId shotId (imageSuccess imageUrl)]
             | Rejected message =>
                 [ConsoleError message;
                  UpdateShot sceneId shotId imageError;
                  SetError (Some ("Image generation failed for shot " +:+ shotId))]
             end
      end
  | _, _ => []
  end.

(** The [nextImageBase64] of [handleGenerateVideo]. *)
Definition nextImageBase64 (st : ProjectState.t) (shot : VideoShot.t)
    (sceneId shotId : string) : option string :=
  if VideoShot.useNextAsEndFrame shot then
    match getNextShot st sceneId shotId with
    | Some nextShot =>
        if JS.truthy (VideoShot.imageUrl nextShot)
        then VideoShot.imageUrl nextShot else None
    | None => None
    end
  else None.

(** The test of the [catch] branch of [handleGenerateVideo]. *)
Definition keyVerificationLost (message : option string) : bool :=
  match message with
  | Some m => JS.includes "Requested entity was not found" m || JS.includes "404" m
  | None => false
  end.

(** [handleGenerateVideo].  An [await handleSelectKey()] whose promise
    rejects throws: before the [try], the handler ends there; inside the
    [catch] branch, the calls after it are skipped. *)
Definition handleGenerateVideo (host : Host)
    (api : GeminiService.VideoRequest.t → GeminiService.VideoOperation)
    (st : State) (sceneId shotId : string) : list Action :=
  match findShot (state st) sceneId shotId with
  | None => []
  | Some shot =>
      match VideoShot.imageUrl shot with
      | None => []
      | Some imageUrl =>
          if String.eqb imageUrl EmptyString then [] else
          let next := nextImageBase64 (state st) shot sceneId shotId in
          (if apiKeyVerified st then [] else handleSelectKey host)
          ++ (if negb (apiKeyVerified st) && selectKeyRejects host then []
              else
                [UpdateShot sceneId shotId videoLoading;
                 RequestVideo (GeminiService.shotVideoRequest shot imageUrl next)]
                ++ match GeminiService.generateShotVideo api shot imageUrl next with
                   | None => []
                   | Some (Resolved videoUrl) =>
                       [UpdateShot sceneId shotId (videoSuccess videoUrl)]
                   | Some (Rejected message) =>
                       ConsoleError message ::
                       if keyVerificationLost message then
                         [SetApiKeyVerified false]
                         ++ handleSelectKey host
                         ++ (if selectKeyRejects host then []
                             else
                               [UpdateShot sceneId shotId videoError;
                                SetError
                                  (Some "Key verification lost. Please try again.")])
                       else
                         [UpdateShot sceneId shotId videoError;
                          SetError (Some ("Video generation failed: "
                                          +:+ JS.interpolate message))]
                   end)
      end
  end.

End App.

(** ** components/Storyboard.tsx *)
Module Storyboard.

(** [getRelativeShots]; [None] is the [TypeError] of reading [.shots] of an
    undefined scene. *)
Definition getRelativeShots (scenes : list VideoScene.t)
    (sceneIdx shotIdx : Z)
    : option (option VideoShot.t * option VideoShot.t) :=
  scene ← JS.get scenes sceneIdx;
  prevShot ←
    match JS.get (VideoScene.shots scene) (shotIdx - 1) with
    | Some shot => Some (Some shot)
    | None =>
        if 0 <? sceneIdx then
          prevScene ← JS.get scenes (sceneIdx - 1);
          Some (JS.get (VideoScene.shots prevScene)
                  (JS.len (VideoScene.shots prevScene) - 1))
        else Some None
    end;
  let nextShot :=
    match JS.get (VideoScene.shots scene) (shotIdx + 1) with
    | Some shot => Some shot
    | None =>
        match JS.get scenes (sceneIdx + 1)
              ≫= (λ s, JS.get (VideoScene.shots s) 0) with
        | Some first => Some first
        | None => None
        end
    end in
  Some (prevShot, nextShot).

Definition isGenerating (shot : VideoShot.t) : bool :=
  bool_decide (VideoShot.imageStatus shot = LOADING)
  || bool_decide (VideoShot.videoStatus shot = LOADING).

(** The [disabled] attribute of the two buttons of a shot card. *)
Definition generateImageDisabled (shot : VideoShot.t) : bool :=
  isGenerating shot.

Definition generateVideoDisabled (shot : VideoShot.t) : bool :=
  negb (JS.truthy (VideoShot.imageUrl shot)) || isGenerating shot.

(** The [onUpdateShot] calls of the two text areas and of the checkbox. *)
Definition editVisualPrompt (value : string) : PartialShot.t :=
  PartialShot.mk (Some value) None None None None None None None.
Definition editMotionPrompt (value : string) : PartialShot.t :=
  PartialShot.mk None (Some value) None None None None None None.
Definition setUseNextAsEndFrame (checked : bool) : PartialShot.t :=
  PartialShot.mk None None None None None None (Some checked) None.

End Storyboard.

(** ** Sessions: handler invocations and the states they reach *)
Module Session.
Import App.

(** What the user and the host can start, with the answers the external
    services will give to that invocation. *)
Inductive Invocation :=
| CheckKey (host : Host)
| SelectKey (host : Host)
| FileUpload (file audioUrl : string) (concept : Outcome ProjectConcept.t)
| RegenerateStructure (randomId : nat → string) (calls : nat)
    (response : GeminiService.PlanResponse) (updatedAnalysis : ProjectAnalysis.t)
| AnalysisConfirmed (updatedAnalysis : ProjectAnalysis.t)
| NewProject
| DismissError
| EditVisualPrompt (sceneId shotId value : string)
| EditMotionPrompt (sceneId shotId value : string)
| ToggleEndFrame (sceneId shotId : string) (checked : bool)
| GenerateImage
    (api : list GeminiService.Part → GeminiService.ImageResponse)
    (sceneId shotId : string)
| GenerateVideo (host : Host)
    (api : GeminiService.VideoRequest.t → GeminiService.VideoOperation)
    (sceneId shotId : string).

(** The calls an invocation issues when it starts from [snapshot]. *)
Definition actions (inv : Invocation) (snapshot : State) : list Action :=
  match inv with
  | CheckKey host => checkKey host
  | SelectKey host => handleSelectKey host
  | FileUpload file audioUrl concept => handleFileUpload file audioUrl concept
  | RegenerateStructure randomId calls response updatedAnalysis =>
      handleRegenerateStructure randomId calls response snapshot updatedAnalysis
  | AnalysisConfirmed updatedAnalysis => handleAnalysisConfirmed updatedAnalysis
  | NewProject => [ResetProject]
  | DismissError => [SetError None]
  | EditVisualPrompt sceneId shotId value =>
      [UpdateShot sceneId shotId (Storyboard.editVisualPrompt value)]
  | EditMotionPrompt sceneId shotId value =>
      [UpdateShot sceneId shotId (Storyboard.editMotionPrompt value)]
  | ToggleEndFrame sceneId shotId checked =>
      [UpdateShot sceneId shotId (Storyboard.setUseNextAsEndFrame checked)]
  | GenerateImage api sceneId shotId =>
      handleGenerateImage api snapshot sceneId shotId
  | GenerateVideo host api sceneId shotId =>
      handleGenerateVideo host api snapshot sceneId shotId
  end.

(** Handlers are asynchronous and close over the state of the render that
    created them: a call issued by an invocation that started from an
    earlier state [snapshot] is applied to the live state [st], whatever
    other invocations have run in between. *)
Inductive reachable : State → Prop :=
| reachable_initial : reachable initialState
| reachable_action st snapshot inv a :
    reachable st → reachable snapshot → a ∈ actions inv snapshot →
    reachable (apply_action st a).

End Session.

(** ** The flattened global shot order *)

(** [flatten(timeline)]: every scene's shots, in scene order. *)
Definition flatten (scenes : list VideoScene.t) : list VideoShot.t :=
  concat (map VideoScene.shots scenes).

(** [flatten_index(i, j)]: the shots of the scenes before scene [i], then
    [j] more. *)
Definition flatten_index (scenes : list VideoScene.t) (i j : nat) : nat :=
  (length (flatten (take i scenes)) + j)%nat.

(** The shot at position [(i, j)]. *)
Definition shot_at (scenes : list VideoScene.t) (i j : nat)
    : option VideoShot.t :=
  scene ← scenes !! i; VideoScene.shots scene !! j.

(** The neighbours of the [k]-th shot of a list. *)
Definition successor_in (shots : list VideoShot.t) (k : nat)
    : option VideoShot.t := shots !! S k.

Definition predecessor_in (shots : list VideoShot.t) (k : nat)
    : option VideoShot.t :=
  match k with
  | O => None
  | S k' => shots !! k'
  end.

(** Shot identifiers are pairwise distinct over the whole timeline. *)
Definition unique_shot_ids (scenes : list VideoScene.t) : Prop :=
  NoDup (VideoShot.id <$> flatten scenes).

Definition every_scene_has_a_shot (scenes : list VideoScene.t) : Prop :=
  Forall (λ scene, VideoScene.shots scene ≠ []) scenes.

(** The data-model invariant of a shot: a successful status comes with its
    URL. *)
Definition status_invariant (shot : VideoShot.t) : Prop :=
  (VideoShot.imageStatus shot = SUCCESS → is_Some (VideoShot.imageUrl shot))
  ∧ (VideoShot.videoStatus shot = SUCCESS → is_Some (VideoShot.videoUrl shot)).

(** The project state that holds a given timeline and nothing else. *)
Definition project_of (scenes : list VideoScene.t) : App.ProjectState.t :=
  App.ProjectState.mk None None None scenes.

(** Adjacency by per-scene index arithmetic: the last shot of the scene before
    scene [i], and the first shot of the scene after it. *)
Definition last_of_previous_scene (scenes : list VideoScene.t) (i : nat)
    : option VideoShot.t :=
  match i with
  | O => None
  | S i' => scenes !! i' ≫= (λ scene, last (VideoScene.shots scene))
  end.

Definition first_of_next_scene (scenes : list VideoScene.t) (i : nat)
    : option VideoShot.t :=
  scenes !! S i ≫= (λ scene, head (VideoScene.shots scene)).

(** What [planScenes] does with an upstream identifier: it keeps a truthy
    one and otherwise takes a drawn one. *)
Definition id_assigned (randomId : nat → string) (upstream : option string)
    (id : string) : Prop :=
  if JS.truthy upstream then upstream = Some id else ∃ k, id = randomId k.

(** A shot as [planScenes] initialises it from its upstream description:
    both statuses are set, and the URLs are those of the upstream shot, none
    when it carries none. *)
Definition shot_initialised (randomId : nat → string) (videoMode : VideoMode)
    (raw : GeminiService.RawShot.t) (shot : VideoShot.t) : Prop :=
  id_assigned randomId (GeminiService.RawShot.id raw) (VideoShot.id shot)
  ∧ VideoShot.imageStatus shot = IDLE
  ∧ VideoShot.videoStatus shot = IDLE
  ∧ VideoShot.imageUrl shot = GeminiService.RawShot.imageUrl raw
  ∧ VideoShot.videoUrl shot = GeminiService.RawShot.videoUrl raw
  ∧ (VideoShot.useNextAsEndFrame shot = true ↔ videoMode = cinematic).

Definition scene_initialised (randomId : nat → string) (videoMode : VideoMode)
    (raw : GeminiService.RawScene.t) (scene : VideoScene.t) : Prop :=
  id_assigned randomId (GeminiService.RawScene.id raw) (VideoScene.id scene)
  ∧ Forall2 (shot_initialised randomId videoMode)
      (default [] (GeminiService.RawScene.shots raw)) (VideoScene.shots scene).

(** The form of the invariant the handlers maintain: a successful image
    status comes with a non-empty [imageUrl]. *)
Definition shot_wf (shot : VideoShot.t) : Prop :=
  (VideoShot.imageStatus shot = SUCCESS → JS.truthy (VideoShot.imageUrl shot) = true)
  ∧ (VideoShot.videoStatus shot = SUCCESS → is_Some (VideoShot.videoUrl shot)).

Definition timeline_wf (scenes : list VideoScene.t) : Prop :=
  Forall (λ scene, Forall shot_wf (VideoScene.shots scene)) scenes.

(** Updates that cannot break [shot_wf]: a URL is never unset or emptied, and
    a status becomes [SUCCESS] only together with its URL. *)
Definition url_kept (url : option (option string)) : Prop :=
  match url with
  | None => True
  | Some v => JS.truthy v = true
  end.

Definition url_set (url : option (option string)) : Prop :=
  match url with
  | None => True
  | Some v => is_Some v
  end.

Definition updates_safe (updates : PartialShot.t) : Prop :=
  url_kept (PartialShot.imageUrl updates)
  ∧ url_set (PartialShot.videoUrl updates)
  ∧ (PartialShot.imageStatus updates = Some SUCCESS →
     is_Some (PartialShot.imageUrl updates))
  ∧ (PartialShot.videoStatus updates = Some SUCCESS →
     is_Some (PartialShot.videoUrl updates)).

Definition action_safe (a : App.Action) : Prop :=
  match a with
  | App.UpdateShot _ _ updates => updates_safe updates
  | App.SetAnalysisAndScenes _ scenes => timeline_wf scenes
  | _ => True
  end.

(** The first request for an image, and for a video, among the calls of a
    handler. *)
Definition requested_image (trace : list App.Action)
    : option (list GeminiService.Part) :=
  head (omap (λ a, match a with
                   | App.RequestImage parts => Some parts
                   | _ => None
                   end) trace).

Definition requested_video (trace : list App.Action)
    : option GeminiService.VideoRequest.t :=
  head (omap (λ a, match a with
                   | App.RequestVideo request => Some request
                   | _ => None
                   end) trace).

(** ** Sample timelines *)
Module Samples.

Definition shot (id visualPrompt : string) : VideoShot.t :=
  VideoShot.mk id 4%Q visualPrompt "Slow push in" None IDLE None IDLE false None.

Definition scene (id : string) (shots : list VideoShot.t) : VideoScene.t :=
  VideoScene.mk id "Verse" "00:00" "00:15" "lyrics" "narrative" shots.

Definition S1 := shot "s1" "dawn".
Definition S2 := shot "s2" "river".
Definition S3 := shot "s3" "temple".

(** Scene A with shots S1 and S2, scene B with shot S3. *)
Definition two_scenes : list VideoScene.t :=
  [scene "A" [S1; S2]; scene "B" [S3]].

(** Two scenes whose single shots carry the same identifier. *)
Definition twin_first := shot "s" "dawn".
Definition twin_second := shot "s" "dusk".
Definition twins : list VideoScene.t :=
  [scene "A" [twin_first]; scene "B" [twin_second]].

(** An empty scene between two scenes that have shots. *)
Definition with_gap : list VideoScene.t :=
  [scene "A" [S1; S2]; scene "E" []; scene "B" [S3]].

(** A session: upload, planning in cinematic mode with a hero image, images
    for S2 and S3, then a regeneration of S2 that fails. *)
Definition concept : ProjectConcept.t :=
  ProjectConcept.mk "Song" "Telugu" "Shiva" "Devotional" "Cosmic dance" None.

Definition cinematic_analysis : ProjectAnalysis.t :=
  ProjectAnalysis.mk concept
    (VisualIdentity.mk "35mm film" "Blue skin, matted hair" "Gold"
       cinematic (Some "data:image/png;base64,HERO"))
    8%Q.

Definition raw_shot (id visualPrompt : string) : GeminiService.RawShot.t :=
  GeminiService.RawShot.mk (Some id) 4%Q visualPrompt "Slow push in"
    None None None.

Definition raw_scene (id : string) (shots : list GeminiService.RawShot.t)
    : GeminiService.RawScene.t :=
  GeminiService.RawScene.mk (Some id) "Verse" "00:00" "00:15" "lyrics"
    "narrative" (Some shots).

Definition plan : GeminiService.PlanResponse :=
  GeminiService.PlanData
    [raw_scene "A" [raw_shot "s1" "dawn"; raw_shot "s2" "river"];
     raw_scene "B" [raw_shot "s3" "temple"]].

Definition randomId (k : nat) : string := "drawn".

Definition image_of (data : string)
    : list GeminiService.Part → GeminiService.ImageResponse :=
  λ _, Resolved [None; Some (Some data)].

Definition image_refused
    : list GeminiService.Part → GeminiService.ImageResponse :=
  λ _, Rejected (Some "quota exceeded").

Definition host : App.Host := App.mkHost (Some true) true (Resolved tt).

Definition uploaded : App.State :=
  App.run App.initialState
    (Session.actions (Session.FileUpload "song.mp3" "blob:song" (Resolved concept))
       App.initialState).

Definition planned : App.State :=
  App.run uploaded
    (Session.actions
       (Session.RegenerateStructure randomId 0 plan cinematic_analysis) uploaded).

Definition s2_drawn : App.State :=
  App.run planned
    (Session.actions (Session.GenerateImage (image_of "TWO") "A" "s2") planned).

Definition s3_drawn : App.State :=
  App.run s2_drawn
    (Session.actions (Session.GenerateImage (image_of "THREE") "B" "s3") s2_drawn).

Definition s2_failed : App.State :=
  App.run s3_drawn
    (Session.actions (Session.GenerateImage image_refused "A" "s2") s3_drawn).

(** The timeline [twins] as the result of planning in montage mode: the
    upstream response names both shots alike. *)
Definition montage_analysis : ProjectAnalysis.t :=
  ProjectAnalysis.mk concept
    (VisualIdentity.mk "35mm film" "Blue skin, matted hair" "Gold" montage None)
    8%Q.

Definition twins_planned : App.State :=
  App.run uploaded
    (Session.actions
       (Session.RegenerateStructure randomId 0
          (GeminiService.PlanData
             [raw_scene "A" [raw_shot "s" "dawn"];
              raw_scene "B" [raw_shot "s" "dusk"]])
          montage_analysis) uploaded).

(** The timeline [with_gap] as the result of planning: the upstream
    response leaves out the shots of scene E. *)
Definition gap_planned : App.State :=
  App.run uploaded
    (Session.actions
       (Session.RegenerateStructure randomId 0
          (GeminiService.PlanData
             [raw_scene "A" [raw_shot "s1" "dawn"; raw_shot "s2" "river"];
              GeminiService.RawScene.mk (Some "E") "Verse" "00:00" "00:15"
                "lyrics" "narrative" None;
              raw_scene "B" [raw_shot "s3" "temple"]])
          montage_analysis) uploaded).

(** The video service: the entity is reported as not found. *)
Definition video_not_found
    : GeminiService.VideoRequest.t → GeminiService.VideoOperation :=
  λ _, GeminiService.OperationRejected (Some "Requested entity was not found.").

End Samples.

(** ** Further parts of the sources *)

(** *** The shot card of components/Storyboard.tsx *)
Module ShotCard.

(** [shot?.imageUrl] of a neighbour that may be missing. *)
Definition imageUrlOf (neighbour : option VideoShot.t) : option string :=
  neighbour ≫= VideoShot.imageUrl.

(** [const canChain = !!nextShot?.imageUrl] *)
Definition canChain (nextShot : option VideoShot.t) : bool :=
  JS.truthy (imageUrlOf nextShot).

(** The image shown in the End Frame box:
    [shot.useNextAsEndFrame && nextShot?.imageUrl ? nextShot.imageUrl : ...],
    [None] standing for the placeholder. *)
Definition endFrameImage (shot : VideoShot.t) (nextShot : option VideoShot.t)
    : option string :=
  if VideoShot.useNextAsEndFrame shot && JS.truthy (imageUrlOf nextShot)
  then imageUrlOf nextShot else None.

(** The Prev Shot thumbnail of the inspector:
    [videoMode === 'cinematic' && prevShot?.imageUrl ? prevShot.imageUrl : ...]. *)
Definition prevShotImage (analysis : ProjectAnalysis.t)
    (prevShot : option VideoShot.t) : option string :=
  if bool_decide (VisualIdentity.videoMode
                    (ProjectAnalysis.visualIdentity analysis) = cinematic)
     && JS.truthy (imageUrlOf prevShot)
  then imageUrlOf prevShot else None.

End ShotCard.

(** *** The export view of App.tsx *)
Module ExportView.

(** [state.scenes.flatMap(s => s.shots)], the clip manifest. *)
Definition manifest (scenes : list VideoScene.t) : list VideoShot.t :=
  flat_map VideoScene.shots scenes.

(** The [disabled] attribute of the render button:
    [manifest.filter(s => s.videoUrl).length === 0]. *)
Definition renderDisabled (scenes : list VideoScene.t) : bool :=
  JS.len (List.filter (λ s, JS.truthy (VideoShot.videoUrl s)) (manifest scenes))
  =? 0.

End ExportView.

(** *** The chat of App.tsx and services/geminiService.ts

    [chatHistory] is the one field of [ProjectState] the other handlers never
    read or write; it is modelled on its own. *)
Module Chat.

Inductive Role := user | model.

Record ChatMessage := mkMessage { role : Role; text : string }.

(** The [contents] [chatWithDirector] sends. *)
Definition contents (userMessage : string) (history : list ChatMessage)
    : list (Role * string) :=
  map (λ m, (role m, text m)) history
  ++ [(user, "User Message: " +:+ userMessage +:+ ". (Provide advice on prompts)")].

(** [chatWithDirector]; the answer of the service is its [response.text]. *)
Definition chatWithDirector
    (api : list (Role * string) → Outcome (option string))
    (currentAnalysis : ProjectAnalysis.t) (currentScenes : list VideoScene.t)
    (userMessage : string) (history : list ChatMessage) : Outcome string :=
  match api (contents userMessage history) with
  | Rejected message => Rejected message
  | Resolved responseText => Resolved (JS.or_else responseText "I can help guide you.")
  end.

(** The two forms of [setState] in [handleChatMessage]: the first replaces
    the history by a value computed from the snapshot, the others append to
    the live history. *)
Inductive Update :=
| ReplaceHistory (newHistory : list ChatMessage)
| AppendMessage (message : ChatMessage).

Definition apply_update (chatHistory : list ChatMessage) (u : Update)
    : list ChatMessage :=
  match u with
  | ReplaceHistory newHistory => newHistory
  | AppendMessage message => chatHistory ++ [message]
  end.

Definition handleChatMessage
    (api : list (Role * string) → Outcome (option string))
    (analysis : option ProjectAnalysis.t) (scenes : list VideoScene.t)
    (chatHistory : list ChatMessage) (userText : string) : list Update :=
  match analysis with
  | None => []
  | Some currentAnalysis =>
      let newHistory := chatHistory ++ [mkMessage user userText] in
      ReplaceHistory newHistory ::
      match chatWithDirector api currentAnalysis scenes userText newHistory with
      | Resolved reply => [AppendMessage (mkMessage model reply)]
      | Rejected _ => [AppendMessage (mkMessage model "Error connecting to AI.")]
      end
  end.

End Chat.

(** *** The hero look: [generateHeroPreviews] of services/geminiService.ts
    and its use by the analysis editor *)
Module HeroLook.

Definition variations : list string :=
  ["Close-up Portrait, looking at camera";
   "Wide Establishment Shot, environmental grandeur";
   "Mid-Shot Action Pose, dynamic composition"].

Definition prompt (concept : ProjectConcept.t)
    (visualIdentity : VisualIdentity.t) (variant : string) : string :=
  GeminiService.template [
    EmptyString;
    "            Generate a cinematic film still. Photorealistic.";
    "            ";
    "            SUBJECT: " +:+ VisualIdentity.characterSheet visualIdentity
      +:+ " (" +:+ ProjectConcept.deity concept +:+ ").";
    "            The subject is depicted with reverence and authentic detail.";
    "            ";
    "            ART DIRECTION: " +:+ VisualIdentity.styleDescription visualIdentity
      +:+ ".";
    "            ";
    "            COMPOSITION: " +:+ variant +:+ ".";
    "            MOOD: " +:+ ProjectConcept.mood concept +:+ ".";
    "            THEME: " +:+ ProjectConcept.theme concept +:+ ".";
    "            ";
    "            TECHNICAL SPECS: Cinematic lighting, detailed texture, authentic film look, high resolution, correct anatomy.";
    "            ";
    "            AVOID: Cartoonish, blurred, distorted faces, painting style (unless specified), extra fingers, watermark, text.";
    "        "
  ].

(** The inner loop: [images.push(...)] for every part that has
    [inlineData]. *)
Definition pushed (parts : list GeminiService.ResponsePart) : list string :=
  flat_map (λ part : GeminiService.ResponsePart,
              match part with
              | Some data => ["data:image/png;base64," +:+ JS.interpolate data]
              | None => []
              end) parts.

(** [generateHeroPreviews]: one request per variation, in order; a rejected
    request is logged and contributes nothing. *)
Definition generateHeroPreviews
    (api : list GeminiService.Part → GeminiService.ImageResponse)
    (concept : ProjectConcept.t) (visualIdentity : VisualIdentity.t)
    : list string :=
  flat_map (λ variant,
              match api [GeminiService.Text (prompt concept visualIdentity variant)] with
              | Rejected _ => []
              | Resolved parts => pushed parts
              end) variations.

(** [updateVisuals('heroImage', img)] of the analysis editor. *)
Definition updateVisualsHeroImage (img : string) (data : ProjectAnalysis.t)
    : ProjectAnalysis.t :=
  let prev := ProjectAnalysis.visualIdentity data in
  ProjectAnalysis.mk
    (ProjectAnalysis.concept data)
    (VisualIdentity.mk
       (VisualIdentity.styleDescription prev)
       (VisualIdentity.characterSheet prev)
       (VisualIdentity.colorPalette prev)
       (VisualIdentity.videoMode prev)
       (Some img))
    (ProjectAnalysis.targetDuration data).

(** The [disabled] attribute of the editor's Next Stage button on the
    visuals tab: [!data.visualIdentity.heroImage]. *)
Definition nextStageDisabled (data : ProjectAnalysis.t) : bool :=
  negb (JS.truthy (VisualIdentity.heroImage (ProjectAnalysis.visualIdentity data))).

End HeroLook.

(** *** Notions used by the further properties *)

(** The update objects that the handlers and the shot card pass to
    [updateShot]. *)
Inductive issued_update : PartialShot.t → Prop :=
| issued_imageLoading : issued_update App.imageLoading
| issued_imageSuccess data :
    issued_update (App.imageSuccess ("data:image/png;base64," +:+ data))
| issued_imageError : issued_update App.imageError
| issued_videoLoading : issued_update App.videoLoading
| issued_videoSuccess videoUrl : issued_update (App.videoSuccess videoUrl)
| issued_videoError : issued_update App.videoError
| issued_visualPrompt value : issued_update (Storyboard.editVisualPrompt value)
| issued_motionPrompt value : issued_update (Storyboard.editMotionPrompt value)
| issued_useNextAsEndFrame checked :
    issued_update (Storyboard.setUseNextAsEndFrame checked).

(** An upstream shot that keeps to [responseSchema]: it carries none of the
    fields that the schema does not list and the application fills in
    later. *)
Definition on_schema (raw : GeminiService.RawShot.t) : Prop :=
  GeminiService.RawShot.imageUrl raw = None
  ∧ GeminiService.RawShot.videoUrl raw = None
  ∧ GeminiService.RawShot.error raw = None.

Definition scenes_on_schema (raws : list GeminiService.RawScene.t) : Prop :=
  Forall (λ raw, Forall on_schema (default [] (GeminiService.RawScene.shots raw)))
    raws.

(** A shot as it leaves [planScenes] when the upstream shot keeps to the
    schema. *)
Definition as_planned (shot : VideoShot.t) : Prop :=
  VideoShot.imageUrl shot = None ∧ VideoShot.imageStatus shot = IDLE
  ∧ VideoShot.videoUrl shot = None ∧ VideoShot.videoStatus shot = IDLE
  ∧ VideoShot.error shot = None.

(** A shot as it leaves [planScenes], whatever the upstream shot carries. *)
Definition planned_from (raw : GeminiService.RawShot.t) (shot : VideoShot.t)
    : Prop :=
  VideoShot.imageStatus shot = IDLE ∧ VideoShot.videoStatus shot = IDLE
  ∧ VideoShot.imageUrl shot = GeminiService.RawShot.imageUrl raw
  ∧ VideoShot.videoUrl shot = GeminiService.RawShot.videoUrl raw
  ∧ VideoShot.error shot = GeminiService.RawShot.error raw.

(** Sessions in which every planning response keeps to the schema. *)
Definition invocation_on_schema (inv : Session.Invocation) : Prop :=
  match inv with
  | Session.RegenerateStructure _ _ (GeminiService.PlanData raws) _ =>
      scenes_on_schema raws
  | _ => True
  end.

Inductive reachable_on_schema : App.State → Prop :=
| on_schema_initial : reachable_on_schema App.initialState
| on_schema_action st snapshot inv a :
    reachable_on_schema st → reachable_on_schema snapshot →
    invocation_on_schema inv → a ∈ Session.actions inv snapshot →
    reachable_on_schema (App.apply_action st a).

(** The signature that [handleGenerateVideo] takes for a lost key: the
    error has a message in which one of the two texts occurs. *)
Definition not_found_signature (message : option string) : Prop :=
  ∃ m pre post,
    message = Some m
    ∧ (m = pre +:+ "Requested entity was not found" +:+ post
       ∨ m = pre +:+ "404" +:+ post).



(** The URLs [generateShotImage] returns. *)
Definition png_data_url (url : string) : Prop :=
  ∃ data, url = "data:image/png;base64," +:+ data.

(** Several [updateShot] calls with one key, in order. *)
Definition updateShotAll (sceneId shotId : string) (commits : list PartialShot.t)
    (prev : App.ProjectState.t) : App.ProjectState.t :=
  foldl (λ st updates, App.updateShot sceneId shotId updates st) prev commits.

(** The identifiers the upstream planning response leaves out. *)
Definition omitted (id : option string) : nat :=
  if JS.truthy id then 0%nat else 1%nat.

Definition omitted_in_scene (raw : GeminiService.RawScene.t) : nat :=
  (omitted (GeminiService.RawScene.id raw)
   + sum_list (omitted ∘ GeminiService.RawShot.id
               <$> default [] (GeminiService.RawScene.shots raw)))%nat.

Definition omitted_ids (raws : list GeminiService.RawScene.t) : nat :=
  sum_list (omitted_in_scene <$> raws).

(** *** Further samples *)
Module MoreSamples.

(** A video service that completes, and the download of its clip. *)
Definition video_done
    : GeminiService.VideoRequest.t → GeminiService.VideoOperation :=
  λ _, GeminiService.OperationDone (Some "https://videos/clip?alt=media")
         (Resolved "blob:clip").

(** Draws that never repeat: the [k]-th one is [k] times the letter x. *)
Fixpoint tally (k : nat) : string :=
  match k with
  | O => EmptyString
  | S j => String (Ascii.Ascii false false false true true true true false) (tally j)
  end.

(** An upstream plan that names nothing. *)
Definition anonymous_plan : list GeminiService.RawScene.t :=
  [GeminiService.RawScene.mk None "Intro" "00:00" "00:10" "la" "opening"
     (Some [GeminiService.RawShot.mk None 4%Q "dawn" "pan" None None None;
            GeminiService.RawShot.mk None 4%Q "river" "tilt" None None None]);
   GeminiService.RawScene.mk None "Verse" "00:10" "00:20" "la la" "rise"
     (Some [GeminiService.RawShot.mk None 4%Q "temple" "orbit" None None None])].

(** An upstream plan that names everything. *)
Definition named_plan : list GeminiService.RawScene.t :=
  [Samples.raw_scene "A" [Samples.raw_shot "s1" "dawn"; Samples.raw_shot "s2" "river"];
   Samples.raw_scene "B" [Samples.raw_shot "s3" "temple"]].

(** An upstream plan whose only shot carries an [imageUrl] of its own. *)
Definition illustrated_shot : GeminiService.RawShot.t :=
  GeminiService.RawShot.mk (Some "s1") 4%Q "dawn" "pan"
    (Some "https://example.org/still.png") None None.

Definition illustrated_plan : list GeminiService.RawScene.t :=
  [Samples.raw_scene "A" [illustrated_shot]].

(** The twins of [Samples.twins], planned in cinematic mode, then with an
    image for the first and for both. *)
Definition twins_cinematic : App.State :=
  App.run Samples.uploaded
    (Session.actions
       (Session.RegenerateStructure Samples.randomId 0
          (GeminiService.PlanData
             [Samples.raw_scene "A" [Samples.raw_shot "s" "dawn"];
              Samples.raw_scene "B" [Samples.raw_shot "s" "dusk"]])
          Samples.cinematic_analysis) Samples.uploaded).

Definition twin_first_drawn : App.State :=
  App.run twins_cinematic
    (Session.actions (Session.GenerateImage (Samples.image_of "ONE") "A" "s")
       twins_cinematic).

Definition twins_drawn : App.State :=
  App.run twin_first_drawn
    (Session.actions (Session.GenerateImage (Samples.image_of "TWO") "B" "s")
       twin_first_drawn).

(** One scene whose two shots the upstream response names alike. *)
Definition namesakes_planned : App.State :=
  App.run Samples.uploaded
    (Session.actions
       (Session.RegenerateStructure Samples.randomId 0
          (GeminiService.PlanData
             [Samples.raw_scene "A"
                [Samples.raw_shot "s" "dawn"; Samples.raw_shot "s" "dusk"]])
          Samples.montage_analysis) Samples.uploaded).

(** The session of [Samples.s3_drawn] after the key check of a host that
    reports a selected key. *)
Definition key_checked : App.State :=
  App.run Samples.s3_drawn
    (Session.actions (Session.CheckKey Samples.host) Samples.s3_drawn).

(** A host whose key dialog rejects. *)
Definition closing_host : App.Host :=
  App.mkHost (Some true) true (Rejected (Some "dialog closed")).

(** A video service that fails for another reason. *)
Definition video_overloaded
    : GeminiService.VideoRequest.t → GeminiService.VideoOperation :=
  λ _, GeminiService.OperationRejected (Some "The model is overloaded.").

End MoreSamples.

(** * Properties *)

(** ** Lists and the flattened order *)

Lemma get_nat {A} (arr : list A) (k : nat) : JS.get arr (Z.of_nat k) = arr !! k.
Proof.
  unfold JS.get. destruct (Z.ltb_spec (Z.of_nat k) 0) as [?|_]; [lia|].
  by rewrite Nat2Z.id.
Qed.

Lemma get_negative {A} (arr : list A) (i : Z) : i < 0 → JS.get arr i = None.
Proof. intros. unfold JS.get. by destruct (Z.ltb_spec i 0); [|lia]. Qed.

Lemma allShots_flatten scenes : App.allShots scenes = flatten scenes.
Proof.
  unfold App.allShots, flatten.
  enough (∀ acc, foldl (λ acc s, acc ++ VideoScene.shots s) acc scenes
                 = acc ++ concat (map VideoScene.shots scenes)) as H
    by apply (H []).
  induction scenes as [|scene scenes IH]; intros acc; simpl.
  - by rewrite app_nil_r.
  - by rewrite IH, <-app_assoc.
Qed.

Lemma flatten_app xs ys : flatten (xs ++ ys) = flatten xs ++ flatten ys.
Proof. unfold flatten. by rewrite map_app, concat_app. Qed.

Lemma flatten_cons scene scenes :
  flatten (scene :: scenes) = VideoScene.shots scene ++ flatten scenes.
Proof. done. Qed.

(** A timeline split around its [i]-th scene. *)
Lemma flatten_split scenes i scene :
  scenes !! i = Some scene →
  flatten scenes
  = flatten (take i scenes) ++ VideoScene.shots scene ++ flatten (drop (S i) scenes).
Proof.
  intros Hi. rewrite <-(take_drop_middle scenes i scene Hi) at 1.
  by rewrite flatten_app, flatten_cons.
Qed.

Lemma flatten_take_S scenes i scene :
  scenes !! i = Some scene →
  flatten (take (S i) scenes) = flatten (take i scenes) ++ VideoScene.shots scene.
Proof.
  intros Hi. rewrite (take_S_r _ _ _ Hi), flatten_app, flatten_cons.
  unfold flatten at 3. simpl. by rewrite app_nil_r.
Qed.

(** Reading the flattened order at an offset inside scene [i]. *)
Lemma flatten_lookup_in_scene scenes i scene j :
  scenes !! i = Some scene → (j < length (VideoScene.shots scene))%nat →
  flatten scenes !! flatten_index scenes i j = VideoScene.shots scene !! j.
Proof.
  intros Hi Hj. unfold flatten_index. rewrite (flatten_split _ _ _ Hi).
  rewrite lookup_app_r by lia.
  replace (length (flatten (take i scenes)) + j - length (flatten (take i scenes)))%nat
    with j by lia.
  by rewrite lookup_app_l.
Qed.

Lemma flatten_lookup_shot scenes i j shot :
  shot_at scenes i j = Some shot →
  flatten scenes !! flatten_index scenes i j = Some shot.
Proof.
  unfold shot_at. intros Hshot.
  destruct (scenes !! i) as [scene|] eqn:Hi; simpl in Hshot; [|done].
  rewrite (flatten_lookup_in_scene _ _ scene) by eauto using lookup_lt_Some.
  done.
Qed.

(** With distinct identifiers, [findIndex] by identifier finds the position
    one started from. *)
Lemma findIndex_unique (shots : list VideoShot.t) k shot :
  NoDup (VideoShot.id <$> shots) → shots !! k = Some shot →
  JS.findIndex (λ s, VideoShot.id s = VideoShot.id shot) shots = Z.of_nat k.
Proof.
  intros Hnd Hk. unfold JS.findIndex.
  assert (list_find (λ s, VideoShot.id s = VideoShot.id shot) shots
          = Some (k, shot)) as ->; [|done].
  apply list_find_Some. split_and!; [done..|].
  intros j y Hj Hlt Heq.
  assert (j = k); [|lia].
  eapply NoDup_lookup; [exact Hnd|..]; rewrite list_lookup_fmap.
  - rewrite Hj. simpl. by rewrite Heq.
  - by rewrite Hk.
Qed.

(** The two lookups of the orchestrator, once [findIndex] is known. *)
Lemma getNextShot_at st sceneId shot k :
  unique_shot_ids (App.ProjectState.scenes st) →
  flatten (App.ProjectState.scenes st) !! k = Some shot →
  App.getNextShot st sceneId (VideoShot.id shot)
  = successor_in (flatten (App.ProjectState.scenes st)) k.
Proof.
  intros Hnd Hk. unfold App.getNextShot, successor_in, unique_shot_ids in *.
  rewrite allShots_flatten. cbv zeta.
  rewrite (findIndex_unique _ k shot Hnd Hk).
  pose proof (lookup_lt_Some _ _ _ Hk) as Hlt. unfold JS.len.
  destruct (Z.eqb_spec (Z.of_nat k) (-1)) as [?|_]; [lia|]. simpl.
  destruct (Z.ltb_spec (Z.of_nat k)
              (Z.of_nat (length (flatten (App.ProjectState.scenes st))) - 1)).
  - replace (Z.of_nat k + 1) with (Z.of_nat (S k)) by lia. apply get_nat.
  - symmetry. apply lookup_ge_None. lia.
Qed.

Lemma getPreviousShot_at st sceneId shot k :
  unique_shot_ids (App.ProjectState.scenes st) →
  flatten (App.ProjectState.scenes st) !! k = Some shot →
  App.getPreviousShot st sceneId (VideoShot.id shot)
  = predecessor_in (flatten (App.ProjectState.scenes st)) k.
Proof.
  intros Hnd Hk. unfold App.getPreviousShot, predecessor_in, unique_shot_ids in *.
  rewrite allShots_flatten. cbv zeta.
  rewrite (findIndex_unique _ k shot Hnd Hk).
  destruct k as [|k'].
  - done.
  - destruct (Z.ltb_spec 0 (Z.of_nat (S k'))); [|lia].
    replace (Z.of_nat (S k') - 1) with (Z.of_nat k') by lia. apply get_nat.
Qed.

(** ** Sessions *)

(** The calls of one invocation, applied in order to a live state, keep it
    reachable; in particular so does a handler that runs without another one
    interleaved. *)
Lemma reachable_calls snapshot inv trace live :
  Session.reachable snapshot → Session.reachable live →
  (∀ a, a ∈ trace → a ∈ Session.actions inv snapshot) →
  Session.reachable (App.run live trace).
Proof.
  intros Hsnap. unfold App.run. revert live.
  induction trace as [|a trace IH]; intros live Hlive Hin; simpl; [done|].
  apply IH.
  - eapply Session.reachable_action; [exact Hlive|exact Hsnap|].
    apply Hin. by left.
  - intros b Hb. apply Hin. by right.
Qed.

Lemma reachable_run st inv :
  Session.reachable st → Session.reachable (App.run st (Session.actions inv st)).
Proof. intros Hst. by eapply reachable_calls. Qed.

Lemma samples_reachable :
  Session.reachable Samples.uploaded
  ∧ Session.reachable Samples.twins_planned
  ∧ Session.reachable Samples.gap_planned
  ∧ Session.reachable Samples.planned
  ∧ Session.reachable Samples.s2_drawn
  ∧ Session.reachable Samples.s3_drawn
  ∧ Session.reachable Samples.s2_failed.
Proof.
  assert (Session.reachable Samples.uploaded) as H1
    by apply reachable_run, Session.reachable_initial.
  assert (Session.reachable Samples.twins_planned) as Ht by by apply reachable_run.
  assert (Session.reachable Samples.gap_planned) as Hg by by apply reachable_run.
  assert (Session.reachable Samples.planned) as H2 by by apply reachable_run.
  assert (Session.reachable Samples.s2_drawn) as H3 by by apply reachable_run.
  assert (Session.reachable Samples.s3_drawn) as H4 by by apply reachable_run.
  assert (Session.reachable Samples.s2_failed) as H5 by by apply reachable_run.
  done.
Qed.

Lemma more_samples_reachable :
  Session.reachable MoreSamples.twins_cinematic
  ∧ Session.reachable MoreSamples.twin_first_drawn
  ∧ Session.reachable MoreSamples.twins_drawn
  ∧ Session.reachable MoreSamples.namesakes_planned
  ∧ Session.reachable MoreSamples.key_checked.
Proof.
  destruct samples_reachable as (Hup & _ & _ & _ & _ & Hs3 & _).
  assert (Session.reachable MoreSamples.twins_cinematic) as H1
    by by apply reachable_run.
  assert (Session.reachable MoreSamples.twin_first_drawn) as H2
    by by apply reachable_run.
  assert (Session.reachable MoreSamples.twins_drawn) as H3
    by by apply reachable_run.
  assert (Session.reachable MoreSamples.namesakes_planned) as H4
    by by apply reachable_run.
  assert (Session.reachable MoreSamples.key_checked) as H5
    by by apply reachable_run.
  done.
Qed.

(** ** The continuity resolver and the flattened order *)

(** C1, as stated, fails when two shots share an identifier: the lookup by
    identifier stops at the first of them.  [Samples.twins] is the timeline
    planned from an upstream response that names both shots alike; the shot
    at position (1, 0) has a predecessor and no successor in the flattened
    order, and the resolver answers the converse. *)
Lemma resolver_duplicate_ids_counterexample :
  Session.reachable Samples.twins_planned
  ∧ App.ProjectState.scenes (App.state Samples.twins_planned) = Samples.twins
  ∧ (2 ≤ length Samples.twins)%nat
  ∧ every_scene_has_a_shot Samples.twins
  ∧ shot_at Samples.twins 1 0 = Some Samples.twin_second
  ∧ predecessor_in (flatten Samples.twins) (flatten_index Samples.twins 1 0)
    = Some Samples.twin_first
  ∧ App.getPreviousShot (App.state Samples.twins_planned) "B"
      (VideoShot.id Samples.twin_second) = None
  ∧ successor_in (flatten Samples.twins) (flatten_index Samples.twins 1 0) = None
  ∧ App.getNextShot (App.state Samples.twins_planned) "B"
      (VideoShot.id Samples.twin_second) = Some Samples.twin_second.
Proof.
  split_and!; try reflexivity.
  - apply samples_reachable.
  - repeat constructor; discriminate.
Qed.

(** C1, amended: in a timeline with at least two scenes, each with at least
    one shot, and with pairwise distinct shot identifiers, the successor and
    the predecessor that [getNextShot] and [getPreviousShot] return for the
    shot at position [(i, j)] are its neighbours in the flattened order: the
    entries at [flatten_index(i, j) + 1] and [flatten_index(i, j) - 1], and
    nothing where the flattened order has no such entry. *)
Theorem resolver_matches_flattened_order st i j shot sceneId :
  (2 ≤ length (App.ProjectState.scenes st))%nat →
  every_scene_has_a_shot (App.ProjectState.scenes st) →
  unique_shot_ids (App.ProjectState.scenes st) →
  shot_at (App.ProjectState.scenes st) i j = Some shot →
  App.getNextShot st sceneId (VideoShot.id shot)
  = successor_in (flatten (App.ProjectState.scenes st))
      (flatten_index (App.ProjectState.scenes st) i j)
  ∧ App.getPreviousShot st sceneId (VideoShot.id shot)
    = predecessor_in (flatten (App.ProjectState.scenes st))
        (flatten_index (App.ProjectState.scenes st) i j).
Proof.
  intros _ _ Hnd Hshot. apply flatten_lookup_shot in Hshot.
  split; [by apply getNextShot_at | by apply getPreviousShot_at].
Qed.

Lemma resolver_matches_flattened_order_witness :
  App.getNextShot (project_of Samples.two_scenes) "A" "s2" = Some Samples.S3
  ∧ App.getPreviousShot (project_of Samples.two_scenes) "A" "s2" = Some Samples.S1.
Proof.
  apply (resolver_matches_flattened_order
           (project_of Samples.two_scenes) 0 1 Samples.S2 "A").
  - vm_compute. lia.
  - repeat constructor; discriminate.
  - apply (bool_decide_unpack _). vm_compute. reflexivity.
  - reflexivity.
Defined.

(** ** Neighbours in the flattened order, scene by scene *)

Lemma get_last {A} (arr : list A) : JS.get arr (JS.len arr - 1) = last arr.
Proof.
  unfold JS.len. destruct arr as [|x arr].
  - by apply get_negative.
  - replace (Z.of_nat (length (x :: arr)) - 1) with (Z.of_nat (length arr))
      by (simpl; lia).
    by rewrite get_nat, last_lookup.
Qed.

Lemma predecessor_in_app (pre rest : list VideoShot.t) :
  predecessor_in (pre ++ rest) (length pre) = last pre.
Proof.
  destruct pre as [|x pre _] using rev_ind; [done|].
  rewrite length_app, last_snoc. simpl.
  replace (length pre + 1)%nat with (S (length pre)) by lia. simpl.
  rewrite <-app_assoc. by rewrite lookup_app_r, Nat.sub_diag by lia.
Qed.

(** The predecessor of position [(i, j)]: the shot before it in its scene,
    or else the last shot of everything before scene [i]. *)
Lemma predecessor_in_flatten scenes i j scene :
  scenes !! i = Some scene → (j < length (VideoScene.shots scene))%nat →
  predecessor_in (flatten scenes) (flatten_index scenes i j)
  = match j with
    | S j' => VideoScene.shots scene !! j'
    | O => last (flatten (take i scenes))
    end.
Proof.
  intros Hi Hj. destruct j as [|j'].
  - unfold flatten_index. rewrite Nat.add_0_r, (flatten_split _ _ _ Hi).
    apply predecessor_in_app.
  - unfold flatten_index. rewrite Nat.add_succ_r. simpl.
    apply (flatten_lookup_in_scene _ _ _ _ Hi). lia.
Qed.

(** The successor of position [(i, j)]: the shot after it in its scene, or
    else the first shot of everything after scene [i]. *)
Lemma successor_in_flatten scenes i j scene :
  scenes !! i = Some scene → (j < length (VideoScene.shots scene))%nat →
  successor_in (flatten scenes) (flatten_index scenes i j)
  = match VideoScene.shots scene !! S j with
    | Some next => Some next
    | None => head (flatten (drop (S i) scenes))
    end.
Proof.
  intros Hi Hj. unfold successor_in, flatten_index.
  rewrite (flatten_split _ _ _ Hi), lookup_app_r by lia.
  replace (S (length (flatten (take i scenes)) + j)
           - length (flatten (take i scenes)))%nat with (S j) by lia.
  destruct (VideoScene.shots scene !! S j) as [next|] eqn:Hnext.
  - by rewrite (lookup_app_l_Some _ _ _ _ Hnext).
  - apply lookup_ge_None in Hnext.
    rewrite lookup_app_r by lia.
    replace (S j - length (VideoScene.shots scene))%nat with O by lia.
    by rewrite head_lookup.
Qed.

(** Where every scene has a shot, the boundary neighbours are in the
    adjacent scene. *)
Lemma last_before_scene scenes i :
  every_scene_has_a_shot scenes → (i ≤ length scenes)%nat →
  last (flatten (take i scenes)) = last_of_previous_scene scenes i.
Proof.
  intros Hne Hi. destruct i as [|i']; [done|]. simpl.
  destruct (lookup_lt_is_Some_2 scenes i') as [prev Hprev]; [lia|].
  rewrite (flatten_take_S _ _ _ Hprev), Hprev, last_app. simpl.
  pose proof (Forall_lookup_1 _ _ _ _ Hne Hprev) as Hshots.
  apply last_is_Some in Hshots as [x ->]. done.
Qed.

Lemma first_after_scene scenes i :
  every_scene_has_a_shot scenes →
  head (flatten (drop (S i) scenes)) = first_of_next_scene scenes i.
Proof.
  intros Hne. unfold first_of_next_scene.
  destruct (scenes !! S i) as [next|] eqn:Hnext; simpl.
  - rewrite (drop_S _ _ _ Hnext), flatten_cons, head_app.
    pose proof (Forall_lookup_1 _ _ _ _ Hne Hnext) as Hshots.
    apply head_is_Some in Hshots as [x ->]. done.
  - apply lookup_ge_None in Hnext. by rewrite drop_ge.
Qed.

(** ** The storyboard's lookup in terms of positions *)

Lemma getRelativeShots_at scenes i j scene :
  scenes !! i = Some scene →
  Storyboard.getRelativeShots scenes (Z.of_nat i) (Z.of_nat j)
  = Some (match (match j with
                 | S j' => VideoScene.shots scene !! j'
                 | O => None
                 end) with
          | Some prev => Some prev
          | None => last_of_previous_scene scenes i
          end,
          match VideoScene.shots scene !! S j with
          | Some next => Some next
          | None => first_of_next_scene scenes i
          end).
Proof.
  intros Hi. unfold Storyboard.getRelativeShots.
  rewrite get_nat, Hi. simpl.
  replace (Z.of_nat j + 1) with (Z.of_nat (S j)) by lia.
  replace (Z.of_nat i + 1) with (Z.of_nat (S i)) by lia.
  rewrite !get_nat.
  assert (JS.get (VideoScene.shots scene) (Z.of_nat j - 1)
          = match j with
            | S j' => VideoScene.shots scene !! j'
            | O => None
            end) as ->.
  { destruct j as [|j'].
    - by apply get_negative.
    - replace (Z.of_nat (S j') - 1) with (Z.of_nat j') by lia. apply get_nat. }
  assert ((if 0 <? Z.of_nat i
           then prevScene ← JS.get scenes (Z.of_nat i - 1);
                Some (JS.get (VideoScene.shots prevScene)
                        (JS.len (VideoScene.shots prevScene) - 1))
           else Some None) = Some (last_of_previous_scene scenes i)) as Hprev.
  { destruct i as [|i']; [done|].
    destruct (Z.ltb_spec 0 (Z.of_nat (S i'))); [|lia].
    replace (Z.of_nat (S i') - 1) with (Z.of_nat i') by lia.
    rewrite get_nat. simpl.
    destruct (lookup_lt_is_Some_2 scenes i') as [prev Hp].
    { apply lookup_lt_Some in Hi. lia. }
    rewrite Hp. simpl. by rewrite get_last. }
  assert (match scenes !! S i ≫= (λ s, JS.get (VideoScene.shots s) 0) with
          | Some first => Some first
          | None => None
          end = first_of_next_scene scenes i) as Hnext.
  { unfold first_of_next_scene.
    destruct (scenes !! S i) as [next|]; simpl; [|done].
    change 0 with (Z.of_nat 0). rewrite get_nat, <-head_lookup.
    by destruct (head (VideoScene.shots next)). }
  rewrite Hnext.
  destruct (match j with
            | S j' => VideoScene.shots scene !! j'
            | O => None
            end) as [prev|]; simpl.
  - done.
  - by rewrite Hprev.
Qed.

(** C10: in a timeline where every scene has at least one shot and the shot
    identifiers are globally unique, the storyboard's [getRelativeShots], by
    per-scene index arithmetic, and the orchestrator's [getPreviousShot] and
    [getNextShot], over the flattened shot list, return the same predecessor
    and the same successor at every shot position [(i, j)]. *)
Theorem orchestrator_and_storyboard_agree st i j shot sceneId :
  every_scene_has_a_shot (App.ProjectState.scenes st) →
  unique_shot_ids (App.ProjectState.scenes st) →
  shot_at (App.ProjectState.scenes st) i j = Some shot →
  Storyboard.getRelativeShots (App.ProjectState.scenes st) (Z.of_nat i) (Z.of_nat j)
  = Some (App.getPreviousShot st sceneId (VideoShot.id shot),
          App.getNextShot st sceneId (VideoShot.id shot)).
Proof.
  intros Hne Hnd Hshot.
  pose proof (flatten_lookup_shot _ _ _ _ Hshot) as Hflat.
  unfold shot_at in Hshot.
  destruct (App.ProjectState.scenes st !! i) as [scene|] eqn:Hi;
    simpl in Hshot; [|done].
  pose proof (lookup_lt_Some _ _ _ Hshot) as Hj.
  rewrite (getRelativeShots_at _ _ _ _ Hi).
  rewrite (getNextShot_at _ _ _ _ Hnd Hflat), (getPreviousShot_at _ _ _ _ Hnd Hflat).
  rewrite (predecessor_in_flatten _ _ _ _ Hi Hj), (successor_in_flatten _ _ _ _ Hi Hj).
  rewrite (first_after_scene _ _ Hne).
  rewrite (last_before_scene _ _ Hne) by (apply lookup_lt_Some in Hi; lia).
  do 2 f_equal. destruct j as [|j']; [done|].
  destruct (lookup_lt_is_Some_2 (VideoScene.shots scene) j') as [prev ->]; [lia|done].
Qed.

Lemma orchestrator_and_storyboard_agree_witness :
  Storyboard.getRelativeShots Samples.two_scenes 1 0
  = Some (App.getPreviousShot (project_of Samples.two_scenes) "B" "s3",
          App.getNextShot (project_of Samples.two_scenes) "B" "s3").
Proof.
  apply (orchestrator_and_storyboard_agree
           (project_of Samples.two_scenes) 1 0 Samples.S3 "B").
  - repeat constructor; discriminate.
  - apply (bool_decide_unpack _). vm_compute. reflexivity.
  - reflexivity.
Defined.

(** C2, as stated, fails for the orchestrator's resolver.  [Samples.with_gap]
    is the timeline planned from an upstream response that gives scene E no
    shots; E stands between scenes A and B, yet the last shot of A has the
    first shot of B as its successor, and the first shot of B has the last
    shot of A as its predecessor. *)
Lemma empty_scene_is_skipped_counterexample :
  Session.reachable Samples.gap_planned
  ∧ App.ProjectState.scenes (App.state Samples.gap_planned) = Samples.with_gap
  ∧ (VideoScene.shots <$> Samples.with_gap)
    = [[Samples.S1; Samples.S2]; []; [Samples.S3]]
  ∧ App.getNextShot (App.state Samples.gap_planned) "A" (VideoShot.id Samples.S2)
    = Some Samples.S3
  ∧ App.getPreviousShot (App.state Samples.gap_planned) "B" (VideoShot.id Samples.S3)
    = Some Samples.S2.
Proof. split_and!; try reflexivity. apply samples_reachable. Qed.

(** C2, amended: where a scene without shots stands between two scenes that
    have shots, the storyboard's [getRelativeShots] does not skip over it:
    it reports no successor for the last shot of the scene before and no
    predecessor for the first shot of the scene after.  The orchestrator's
    [getNextShot] and [getPreviousShot], which search the flattened shot
    list, do skip it when shot identifiers are globally unique: the last shot
    before the empty scene and the first shot after it are each other's
    successor and predecessor. *)
Theorem empty_scene_boundary st i before gap after a b :
  App.ProjectState.scenes st !! i = Some before →
  App.ProjectState.scenes st !! S i = Some gap →
  App.ProjectState.scenes st !! S (S i) = Some after →
  VideoScene.shots gap = [] →
  last (VideoScene.shots before) = Some a →
  head (VideoScene.shots after) = Some b →
  (∃ prev,
     Storyboard.getRelativeShots (App.ProjectState.scenes st) (Z.of_nat i)
       (JS.len (VideoScene.shots before) - 1) = Some (prev, None))
  ∧ (∃ next,
       Storyboard.getRelativeShots (App.ProjectState.scenes st)
         (Z.of_nat (S (S i))) 0 = Some (None, next))
  ∧ (unique_shot_ids (App.ProjectState.scenes st) →
     App.getNextShot st (VideoScene.id before) (VideoShot.id a) = Some b
     ∧ App.getPreviousShot st (VideoScene.id after) (VideoShot.id b) = Some a).
Proof.
  intros Hbefore Hgap Hafter Hempty Ha Hb.
  set (scenes := App.ProjectState.scenes st) in *.
  set (n := pred (length (VideoScene.shots before))).
  assert (length (VideoScene.shots before) = S n) as Hlen.
  { destruct (VideoScene.shots before); [done|]. subst n. done. }
  assert (VideoScene.shots before !! n = Some a) as Hn
    by (by rewrite <-Ha, last_lookup).
  assert (VideoScene.shots after !! 0%nat = Some b) as H0
    by (by rewrite <-Hb, head_lookup).
  split_and!.
  - eexists. replace (JS.len (VideoScene.shots before) - 1) with (Z.of_nat n)
      by (unfold JS.len; lia).
    rewrite (getRelativeShots_at _ _ _ _ Hbefore).
    rewrite (proj2 (lookup_ge_None _ _)) by lia.
    unfold first_of_next_scene. fold scenes. rewrite Hgap. simpl.
    by rewrite Hempty.
  - eexists. change 0 with (Z.of_nat 0).
    rewrite (getRelativeShots_at _ _ _ _ Hafter). simpl. fold scenes.
    rewrite Hgap. simpl. by rewrite Hempty.
  - intros Hnd. split.
    + assert (shot_at scenes i n = Some a) as Hat
        by (unfold shot_at; by rewrite Hbefore).
      rewrite (getNextShot_at _ _ _ _ Hnd (flatten_lookup_shot _ _ _ _ Hat)).
      rewrite (successor_in_flatten _ _ _ _ Hbefore) by lia.
      rewrite (proj2 (lookup_ge_None _ _)) by lia.
      rewrite (drop_S _ _ _ Hgap), (drop_S _ _ _ Hafter), !flatten_cons, Hempty.
      simpl. rewrite head_app. by rewrite Hb.
    + assert (shot_at scenes (S (S i)) 0 = Some b) as Hat
        by (unfold shot_at; by rewrite Hafter).
      rewrite (getPreviousShot_at _ _ _ _ Hnd (flatten_lookup_shot _ _ _ _ Hat)).
      rewrite (predecessor_in_flatten _ _ _ _ Hafter)
        by eauto using lookup_lt_Some.
      rewrite (flatten_take_S _ _ _ Hgap), (flatten_take_S _ _ _ Hbefore), Hempty.
      rewrite app_nil_r, last_app. by rewrite Ha.
Qed.

Lemma empty_scene_boundary_witness :
  (∃ prev, Storyboard.getRelativeShots Samples.with_gap 0 1 = Some (prev, None))
  ∧ (∃ next, Storyboard.getRelativeShots Samples.with_gap 2 0 = Some (None, next))
  ∧ App.getNextShot (project_of Samples.with_gap) "A" "s2" = Some Samples.S3
  ∧ App.getPreviousShot (project_of Samples.with_gap) "B" "s3" = Some Samples.S2.
Proof.
  destruct (empty_scene_boundary (project_of Samples.with_gap) 0
              (Samples.scene "A" [Samples.S1; Samples.S2])
              (Samples.scene "E" [])
              (Samples.scene "B" [Samples.S3])
              Samples.S2 Samples.S3) as (Hprev & Hnext & Hskip);
    [reflexivity..|].
  split_and!; [exact Hprev|exact Hnext|apply Hskip..];
    apply (bool_decide_unpack _); vm_compute; reflexivity.
Defined.

(** ** Plan generation *)

Lemma idOrFresh_assigned randomId upstream calls :
  id_assigned randomId upstream
    (fst (GeminiService.idOrFresh randomId upstream calls)).
Proof.
  unfold id_assigned, GeminiService.idOrFresh, JS.truthy.
  destruct upstream as [s|]; simpl.
  - destruct (String.eqb s EmptyString); simpl; eauto.
  - eauto.
Qed.

Lemma mapG_Forall2 {A B} (f : A → GeminiService.Gen B) (R : A → B → Prop) :
  (∀ a calls, R a (fst (f a calls))) →
  ∀ arr calls, Forall2 R arr (fst (GeminiService.mapG f arr calls)).
Proof.
  intros Hf arr. induction arr as [|a arr IH]; intros calls; simpl.
  - constructor.
  - unfold GeminiService.bind.
    pose proof (Hf a calls) as Ha. destruct (f a calls) as [b calls1].
    pose proof (IH calls1) as Hrest.
    destruct (GeminiService.mapG f arr calls1) as [bs calls2].
    by constructor.
Qed.

Lemma planShot_initialised randomId videoMode raw calls :
  shot_initialised randomId videoMode raw
    (fst (GeminiService.planShot randomId videoMode raw calls)).
Proof.
  unfold GeminiService.planShot, GeminiService.bind.
  pose proof (idOrFresh_assigned randomId (GeminiService.RawShot.id raw) calls) as Hid.
  destruct (GeminiService.idOrFresh _ _ calls) as [id calls1]. simpl in *.
  repeat split; try done.
  - by intros ?%bool_decide_eq_true.
  - by intros ?; apply bool_decide_eq_true.
Qed.

Lemma planScene_initialised randomId videoMode raw calls :
  scene_initialised randomId videoMode raw
    (fst (GeminiService.planScene randomId videoMode raw calls)).
Proof.
  unfold GeminiService.planScene, GeminiService.bind.
  pose proof (idOrFresh_assigned randomId (GeminiService.RawScene.id raw) calls) as Hid.
  destruct (GeminiService.idOrFresh _ _ calls) as [id calls1].
  pose proof (mapG_Forall2 _ _ (planShot_initialised randomId videoMode)
                (default [] (GeminiService.RawScene.shots raw)) calls1) as Hshots.
  destruct (GeminiService.mapG _ _ calls1) as [shots calls2].
  by split.
Qed.

Lemma mapScenes_initialised randomId analysis raws calls :
  Forall2 (scene_initialised randomId
             (VisualIdentity.videoMode (ProjectAnalysis.visualIdentity analysis)))
    raws (fst (GeminiService.mapScenes randomId analysis raws calls)).
Proof.
  unfold GeminiService.mapScenes.
  apply mapG_Forall2, planScene_initialised.
Qed.

Lemma planScenes_data randomId analysis raws calls :
  fst (GeminiService.planScenes randomId (GeminiService.PlanData raws) analysis calls)
  = Resolved (fst (GeminiService.mapScenes randomId analysis raws calls)).
Proof.
  unfold GeminiService.planScenes, GeminiService.bind.
  by destruct (GeminiService.mapScenes randomId analysis raws calls).
Qed.

Lemma planScenes_throws randomId analysis mapped message calls :
  fst (GeminiService.planScenes randomId (GeminiService.PlanThrows mapped message)
         analysis calls)
  = Rejected message.
Proof.
  unfold GeminiService.planScenes, GeminiService.bind.
  by destruct (GeminiService.mapScenes randomId analysis mapped calls).
Qed.

(** C5, as stated, fails for an upstream response that does not keep to the
    response schema.  The shot of [MoreSamples.illustrated_plan] carries an
    [imageUrl]; [planScenes] spreads the upstream shot into its result and
    sets the identifier, the two statuses and the end-frame flag only, so the
    planned shot has [imageStatus] [IDLE] and that [imageUrl]. *)
Lemma planScenes_keeps_upstream_url_counterexample :
  ∃ shot,
    fst (GeminiService.planScenes Samples.randomId
           (GeminiService.PlanData MoreSamples.illustrated_plan)
           Samples.montage_analysis 0%nat)
    = Resolved [Samples.scene "A" [shot]]
    ∧ VideoShot.imageStatus shot = IDLE
    ∧ VideoShot.imageUrl shot = Some "https://example.org/still.png".
Proof. eexists. split_and!; reflexivity. Qed.

(** C5, amended: for every parsed upstream planning response, [planScenes]
    resolves with one scene per upstream scene and one shot per upstream
    shot; every shot has both statuses [IDLE], the [imageUrl] and the
    [videoUrl] of its upstream shot, none when the upstream shot carries
    none, and [useNextAsEndFrame] set exactly when the video mode is
    cinematic; every scene and every shot keeps its upstream identifier when
    it has a (non-empty) one and is assigned a drawn identifier when the
    upstream omitted it. *)
Theorem planScenes_initialises_shots randomId analysis raws calls :
  ∃ scenes calls',
    GeminiService.planScenes randomId (GeminiService.PlanData raws) analysis calls
    = (Resolved scenes, calls')
    ∧ Forall2 (scene_initialised randomId
                 (VisualIdentity.videoMode (ProjectAnalysis.visualIdentity analysis)))
        raws scenes.
Proof.
  pose proof (mapScenes_initialised randomId analysis raws calls) as Hscenes.
  unfold GeminiService.planScenes, GeminiService.bind.
  destruct (GeminiService.mapScenes randomId analysis raws calls) as [scenes calls'].
  by exists scenes, calls'.
Qed.

(** ** The status invariant over sessions *)

Lemma truthy_is_Some v : JS.truthy v = true → is_Some v.
Proof. destruct v; [eauto|done]. Qed.

Lemma spread_wf shot updates :
  shot_wf shot → updates_safe updates → shot_wf (PartialShot.spread shot updates).
Proof.
  intros [Himg Hvid] (Hiu & Hvu & His & Hvs).
  destruct updates as [vp mp iurl ist vurl vst ue er]. unfold shot_wf. simpl in *.
  split.
  - destruct ist as [status|]; simpl.
    + intros ->. destruct (His eq_refl) as [v ->]. exact Hiu.
    + intros Hs. destruct iurl as [v|]; simpl; [exact Hiu|by apply Himg].
  - destruct vst as [status|]; simpl.
    + intros ->. destruct (Hvs eq_refl) as [v ->]. exact Hvu.
    + intros Hs. destruct vurl as [v|]; simpl; [exact Hvu|by apply Hvid].
Qed.

Lemma updateShot_wf sceneId shotId updates prev :
  timeline_wf (App.ProjectState.scenes prev) → updates_safe updates →
  timeline_wf (App.ProjectState.scenes (App.updateShot sceneId shotId updates prev)).
Proof.
  intros Hwf Hsafe. unfold timeline_wf, App.updateShot in *. simpl.
  apply List.Forall_map. eapply Forall_impl; [exact Hwf|].
  intros scene Hscene. simpl. case_decide; [done|]. simpl.
  apply List.Forall_map. eapply Forall_impl; [exact Hscene|].
  intros shot Hshot. simpl. case_decide; [by apply spread_wf|done].
Qed.

Lemma apply_action_wf st a :
  timeline_wf (App.ProjectState.scenes (App.state st)) → action_safe a →
  timeline_wf (App.ProjectState.scenes (App.state (App.apply_action st a))).
Proof.
  intros Hwf Hsafe. destruct a; simpl in *; try done.
  - constructor.
  - by apply updateShot_wf.
Qed.

Lemma planned_timeline_wf randomId videoMode raws scenes :
  Forall2 (scene_initialised randomId videoMode) raws scenes → timeline_wf scenes.
Proof.
  intros Hplanned. unfold timeline_wf.
  induction Hplanned as [|raw scene raws scenes [_ Hshots] _ IH]; constructor; [|done].
  clear IH. induction Hshots as [|rawShot shot ? ? Hshot _ IH]; constructor; [|done].
  destruct Hshot as (_ & Himg & Hvid & _). split; congruence.
Qed.

Lemma generateShotImage_truthy api shot analysis lyrics narrative prev imageUrl :
  GeminiService.generateShotImage api shot analysis lyrics narrative prev
  = Resolved imageUrl →
  JS.truthy (Some imageUrl) = true.
Proof.
  unfold GeminiService.generateShotImage. intros Hgen.
  repeat case_match; simplify_eq. done.
Qed.

(** Membership in the short call lists of the handlers, case by case. *)
Ltac each_call :=
  set_unfold; intros; destruct_or?; subst; simpl; try done;
  try (cbv -[JS.truthy]; split_and!; try done; try (intros; discriminate); eauto).

(** Every call a handler issues is safe for the invariant. *)
Lemma handler_actions_safe inv snapshot a :
  a ∈ Session.actions inv snapshot → action_safe a.
Proof.
  destruct inv; simpl.
  - unfold App.checkKey. case_match; each_call.
  - unfold App.handleSelectKey. repeat case_match; each_call.
  - unfold App.handleFileUpload. case_match; each_call. constructor.
  - unfold App.handleRegenerateStructure.
    destruct (App.ProjectState.audioFile _); [|each_call].
    destruct response as [m| |m|mapped m|raws];
      [simpl; each_call| simpl; each_call| simpl; each_call| |].
    { rewrite planScenes_throws. each_call. }
    rewrite planScenes_data. each_call.
    eapply planned_timeline_wf, mapScenes_initialised.
  - each_call.
  - each_call.
  - each_call.
  - each_call.
  - each_call.
  - each_call.
  - unfold App.handleGenerateImage. repeat case_match; each_call.
    eapply generateShotImage_truthy; eauto.
  - unfold App.handleGenerateVideo, App.handleSelectKey, App.selectKeyRejects.
    repeat case_match; each_call.
Qed.

Lemma reachable_timeline_wf st :
  Session.reachable st → timeline_wf (App.ProjectState.scenes (App.state st)).
Proof.
  induction 1 as [|st snapshot inv a _ IH _ _ Ha].
  - constructor.
  - apply apply_action_wf; [done|]. by eapply handler_actions_safe.
Qed.

(** C8: in every state reachable by the handlers (plan generation, image
    and video generation with their dispatch, success and failure updates,
    and the user's edits of a shot), under any interleaving of their calls,
    every shot whose [imageStatus] is [SUCCESS] has an [imageUrl] and every
    shot whose [videoStatus] is [SUCCESS] has a [videoUrl]. *)
Theorem reachable_status_invariant st scene shot :
  Session.reachable st →
  scene ∈ App.ProjectState.scenes (App.state st) →
  shot ∈ VideoScene.shots scene →
  status_invariant shot.
Proof.
  intros Hreach Hscene Hshot.
  pose proof (reachable_timeline_wf st Hreach) as Hwf.
  unfold timeline_wf in Hwf. rewrite Forall_forall in Hwf.
  pose proof (Hwf scene Hscene) as Hshots. rewrite Forall_forall in Hshots.
  destruct (Hshots shot Hshot) as [Himg Hvid].
  split; [|done]. intros Hs. by apply truthy_is_Some, Himg.
Qed.

Lemma reachable_status_invariant_witness :
  status_invariant
    (VideoShot.mk "s3" 4%Q "temple" "Slow push in"
       (Some "data:image/png;base64,THREE") SUCCESS None IDLE true None).
Proof.
  apply (reachable_status_invariant Samples.s2_failed
           (VideoScene.mk "B" "Verse" "00:00" "00:15" "lyrics" "narrative"
              [VideoShot.mk "s3" 4%Q "temple" "Slow push in"
                 (Some "data:image/png;base64,THREE") SUCCESS None IDLE true None])).
  - apply samples_reachable.
  - apply (list_elem_of_lookup_2 _ 1%nat). reflexivity.
  - apply (list_elem_of_lookup_2 _ 0%nat). reflexivity.
Defined.

(** ** Requests built by the orchestrator *)

Lemma get_elem_of {A} (arr : list A) (i : Z) x : JS.get arr i = Some x → x ∈ arr.
Proof.
  unfold JS.get. case_match; [done|]. apply list_elem_of_lookup_2.
Qed.

Lemma getPreviousShot_elem_of st sceneId shotId prevShot :
  App.getPreviousShot st sceneId shotId = Some prevShot →
  prevShot ∈ flatten (App.ProjectState.scenes st).
Proof.
  unfold App.getPreviousShot. rewrite allShots_flatten. cbv zeta.
  case_match; [|done]. apply get_elem_of.
Qed.

Lemma flatten_wf scenes shot :
  timeline_wf scenes → shot ∈ flatten scenes → shot_wf shot.
Proof.
  unfold timeline_wf, flatten. intros Hwf Hin.
  apply list_elem_of_In, in_concat in Hin as (shots & Hshots & Hshot).
  apply in_map_iff in Hshots as (scene & <- & Hscene).
  apply list_elem_of_In in Hscene, Hshot.
  rewrite Forall_forall in Hwf. pose proof (Hwf _ Hscene) as Hscene_wf.
  rewrite Forall_forall in Hscene_wf. by apply Hscene_wf.
Qed.

Lemma findShot_scene st sceneId shotId shot :
  App.findShot st sceneId shotId = Some shot →
  ∃ scene, App.findScene st sceneId = Some scene.
Proof.
  unfold App.findShot. destruct (App.findScene st sceneId); [eauto|done].
Qed.

Lemma referencePart_truthy url :
  url ≠ EmptyString →
  GeminiService.referencePart (Some url)
  = [GeminiService.InlineData "image/png" (JS.payload url)].
Proof.
  intros Hne. unfold GeminiService.referencePart.
  by apply String.eqb_neq in Hne as ->.
Qed.

Lemma truthy_Some v :
  JS.truthy v = true → ∃ url, v = Some url ∧ url ≠ EmptyString.
Proof.
  destruct v as [url|]; [|done]. simpl. intros Hne. exists url. split; [done|].
  apply String.eqb_neq. by destruct (String.eqb url EmptyString).
Qed.

(** C3, as stated, fails when two shots share an identifier.  In
    [MoreSamples.twin_first_drawn], a session in cinematic mode, the shot at
    position (1, 0) has a predecessor in the flattened order whose
    [imageStatus] is [SUCCESS], but the request built for it carries the hero
    image and the text only: [getPreviousShot] looks the identifier up and
    stops at the first shot that carries it, which has no predecessor. *)
Lemma image_request_duplicate_ids_counterexample :
  Session.reachable MoreSamples.twin_first_drawn
  ∧ App.ProjectState.analysis (App.state MoreSamples.twin_first_drawn)
    = Some Samples.cinematic_analysis
  ∧ VisualIdentity.videoMode
      (ProjectAnalysis.visualIdentity Samples.cinematic_analysis) = cinematic
  ∧ ∃ shot prevShot text,
      shot_at (App.ProjectState.scenes (App.state MoreSamples.twin_first_drawn))
        1 0 = Some shot
      ∧ VideoShot.id shot = "s"
      ∧ App.findShot (App.state MoreSamples.twin_first_drawn) "B" "s" = Some shot
      ∧ predecessor_in
          (flatten (App.ProjectState.scenes (App.state MoreSamples.twin_first_drawn)))
          (flatten_index
             (App.ProjectState.scenes (App.state MoreSamples.twin_first_drawn)) 1 0)
        = Some prevShot
      ∧ VideoShot.imageStatus prevShot = SUCCESS
      ∧ VideoShot.imageUrl prevShot = Some "data:image/png;base64,ONE"
      ∧ requested_image
          (App.handleGenerateImage (Samples.image_of "TWO")
             MoreSamples.twin_first_drawn "B" "s")
        = Some [GeminiService.InlineData "image/png" (Some "HERO");
                GeminiService.Text text].
Proof.
  split; [apply more_samples_reachable|].
  split_and!; [reflexivity..|].
  do 3 eexists. split_and!; reflexivity.
Qed.

(** C3, amended: in a reachable state whose shot identifiers are pairwise
    distinct, for the shot at position [(i, j)] for which
    [handleGenerateImage] builds a request, the service receives, whatever it
    answers, the hero image (if one is selected), then at most one
    predecessor image, then the text; the handler's calls depend on the
    service through its answer to that request only, and an image in the
    answer is committed to the shot.  In montage mode no predecessor image is
    attached, whatever the state of the predecessor.  In cinematic mode, when
    the predecessor in the flattened order has [imageStatus] [SUCCESS], its
    image is attached.  An attached predecessor image is the image of that
    predecessor and comes after the hero image. *)
Theorem image_request_references st sceneId i j shot analysis :
  Session.reachable st →
  unique_shot_ids (App.ProjectState.scenes (App.state st)) →
  shot_at (App.ProjectState.scenes (App.state st)) i j = Some shot →
  App.findShot (App.state st) sceneId (VideoShot.id shot) = Some shot →
  App.ProjectState.analysis (App.state st) = Some analysis →
  ∃ previous text,
    (∀ api,
       requested_image (App.handleGenerateImage api st sceneId (VideoShot.id shot))
       = Some (GeminiService.referencePart
                 (VisualIdentity.heroImage (ProjectAnalysis.visualIdentity analysis))
               ++ previous ++ [GeminiService.Text text]))
    ∧ (∀ api api',
         api (GeminiService.referencePart
                (VisualIdentity.heroImage (ProjectAnalysis.visualIdentity analysis))
              ++ previous ++ [GeminiService.Text text])
         = api' (GeminiService.referencePart
                   (VisualIdentity.heroImage (ProjectAnalysis.visualIdentity analysis))
                 ++ previous ++ [GeminiService.Text text]) →
         App.handleGenerateImage api st sceneId (VideoShot.id shot)
         = App.handleGenerateImage api' st sceneId (VideoShot.id shot))
    ∧ (∀ api data,
         api (GeminiService.referencePart
                (VisualIdentity.heroImage (ProjectAnalysis.visualIdentity analysis))
              ++ previous ++ [GeminiService.Text text])
         = Resolved [Some (Some data)] →
         App.UpdateShot sceneId (VideoShot.id shot)
           (App.imageSuccess ("data:image/png;base64," +:+ data))
         ∈ App.handleGenerateImage api st sceneId (VideoShot.id shot))
    ∧ (VisualIdentity.videoMode (ProjectAnalysis.visualIdentity analysis) = montage →
       previous = [])
    ∧ (∀ prevShot,
         VisualIdentity.videoMode (ProjectAnalysis.visualIdentity analysis) = cinematic →
         predecessor_in (flatten (App.ProjectState.scenes (App.state st)))
           (flatten_index (App.ProjectState.scenes (App.state st)) i j)
         = Some prevShot →
         VideoShot.imageStatus prevShot = SUCCESS →
         ∃ url, VideoShot.imageUrl prevShot = Some url
                ∧ previous = [GeminiService.InlineData "image/png" (JS.payload url)])
    ∧ (previous = []
       ∨ ∃ prevShot url,
           predecessor_in (flatten (App.ProjectState.scenes (App.state st)))
             (flatten_index (App.ProjectState.scenes (App.state st)) i j)
           = Some prevShot
           ∧ VideoShot.imageUrl prevShot = Some url
           ∧ previous = [GeminiService.InlineData "image/png" (JS.payload url)]).
Proof.
  intros Hreach Hnd Hat Hshot Hanalysis.
  destruct (findShot_scene _ _ _ _ Hshot) as [scene Hscene].
  pose proof (reachable_timeline_wf _ Hreach) as Hwf.
  pose proof (getPreviousShot_at (App.state st) sceneId shot _ Hnd
                (flatten_lookup_shot _ _ _ _ Hat)) as Hbefore.
  rewrite <-Hbefore.
  exists (GeminiService.referencePart
            (App.prevShotUrl (App.state st) analysis sceneId (VideoShot.id shot))).
  eexists. split_and!.
  - intros api. unfold App.handleGenerateImage. rewrite Hshot, Hanalysis, Hscene.
    reflexivity.
  - intros api api' Hsame. unfold App.handleGenerateImage.
    rewrite Hshot, Hanalysis, Hscene.
    unfold GeminiService.generateShotImage, GeminiService.shotImageParts.
    by rewrite Hsame.
  - intros api data Hanswer. unfold App.handleGenerateImage.
    rewrite Hshot, Hanalysis, Hscene.
    unfold GeminiService.generateShotImage, GeminiService.shotImageParts.
    rewrite Hanswer. simpl. set_solver.
  - intros Hmode. unfold App.prevShotUrl. rewrite Hmode.
    by destruct (App.getPreviousShot _ _ _).
  - intros prevShot Hmode Hprev Hstatus.
    pose proof (flatten_wf _ _ Hwf (getPreviousShot_elem_of _ _ _ _ Hprev)) as [Himg _].
    specialize (Himg Hstatus).
    destruct (truthy_Some _ Himg) as (url & Hurl & Hne).
    exists url. split; [done|].
    unfold App.prevShotUrl. rewrite Hprev, Hmode, Himg. simpl.
    rewrite Hurl. by apply referencePart_truthy.
  - unfold App.prevShotUrl.
    destruct (App.getPreviousShot _ _ _) as [prevShot|] eqn:Hprev; [|by left].
    destruct (bool_decide _ && JS.truthy (VideoShot.imageUrl prevShot)) eqn:Htest;
      [|by left].
    apply andb_true_iff in Htest as [_ Himg].
    destruct (truthy_Some _ Himg) as (url & Hurl & Hne).
    right. exists prevShot, url. split_and!; [done..|].
    rewrite Hurl. by apply referencePart_truthy.
Qed.

Lemma image_request_references_witness :
  ∃ text,
    requested_image
      (App.handleGenerateImage (Samples.image_of "THREE") Samples.s2_drawn "B" "s3")
    = Some [GeminiService.InlineData "image/png" (Some "HERO");
            GeminiService.InlineData "image/png" (Some "TWO");
            GeminiService.Text text].
Proof.
  destruct (image_request_references Samples.s2_drawn "B" 1 0
              (VideoShot.mk "s3" 4%Q "temple" "Slow push in"
                 None IDLE None IDLE true None)
              Samples.cinematic_analysis)
    as (previous & text & Hrequest & _ & _ & _ & Hcinematic & _).
  - apply samples_reachable.
  - apply (bool_decide_unpack _). vm_compute. reflexivity.
  - reflexivity.
  - reflexivity.
  - reflexivity.
  - destruct (Hcinematic
                (VideoShot.mk "s2" 4%Q "river" "Slow push in"
                   (Some "data:image/png;base64,TWO") SUCCESS None IDLE true None)
                eq_refl eq_refl eq_refl) as (url & Hurl & Hprevious).
    exists text.
    pose proof (Hrequest (Samples.image_of "THREE")) as Hparts.
    cbn [VideoShot.id] in Hparts. rewrite Hparts, Hprevious.
    injection Hurl as <-. reflexivity.
Defined.




(** ** Status updates of a single shot *)

Lemma Forall2_map_self {A B} (R : A → B → Prop) (g : A → B) (l : list A) :
  (∀ x, R x (g x)) → Forall2 R l (map g l).
Proof. intros Hg. induction l; simpl; by constructor. Qed.

(** Two successive [updateShot] calls with the same key, shot by shot: the
    shots with that key receive both updates, every other shot is the same
    and no shot or scene is added or removed. *)
Lemma updateShot_twice sceneId shotId first second prev :
  Forall2
    (λ old new,
       VideoScene.id new = VideoScene.id old
       ∧ Forall2
           (λ shot shot',
              shot' = if decide (VideoScene.id old = sceneId
                                 ∧ VideoShot.id shot = shotId)
                      then PartialShot.spread (PartialShot.spread shot first) second
                      else shot)
           (VideoScene.shots old) (VideoScene.shots new))
    (App.ProjectState.scenes prev)
    (App.ProjectState.scenes
       (App.updateShot sceneId shotId second
          (App.updateShot sceneId shotId first prev))).
Proof.
  unfold App.updateShot. simpl. rewrite map_map.
  apply Forall2_map_self. intros old.
  destruct (decide (VideoScene.id old ≠ sceneId)) as [Hother|Hsame]; simpl.
  - rewrite decide_True by done. split; [done|].
    rewrite <-(map_id (VideoScene.shots old)) at 2.
    apply Forall2_map_self. intros shot. by rewrite decide_False by tauto.
  - assert (VideoScene.id old = sceneId) as Hid
      by (by destruct (decide (VideoScene.id old = sceneId))).
    rewrite decide_False by (simpl; tauto). simpl. split; [done|].
    rewrite map_map. apply Forall2_map_self. intros shot.
    destruct (decide (VideoShot.id shot = shotId)) as [Hshot|Hshot]; simpl.
    + rewrite decide_True by done. by rewrite decide_True by done.
    + rewrite decide_False by done. by rewrite decide_False by tauto.
Qed.

(** C6, as stated, fails: after an image has been generated for a shot and
    its regeneration has failed, the shot keeps the earlier [imageUrl] with
    [imageStatus] [ERROR]; the Generate Video button is enabled for it and
    [handleGenerateVideo] issues a video request. *)
Lemma video_invocable_after_failed_regeneration_counterexample :
  Session.reachable Samples.s2_failed
  ∧ ∃ shot,
      App.findShot (App.state Samples.s2_failed) "A" "s2" = Some shot
      ∧ VideoShot.imageStatus shot = ERROR
      ∧ Storyboard.generateVideoDisabled shot = false
      ∧ is_Some (requested_video
                   (App.handleGenerateVideo Samples.host Samples.video_not_found
                      Samples.s2_failed "A" "s2")).
Proof.
  split; [apply samples_reachable|].
  eexists. split_and!; [reflexivity..|]. by eexists.
Qed.

(** C6, amended: video generation is not invocable for a shot that has no
    (non-empty) [imageUrl]: the Generate Video button is disabled for it and
    [handleGenerateVideo] returns without issuing any call. *)
Theorem video_generation_requires_image_url host api st sceneId shotId shot :
  App.findShot (App.state st) sceneId shotId = Some shot →
  JS.truthy (VideoShot.imageUrl shot) = false →
  Storyboard.generateVideoDisabled shot = true
  ∧ App.handleGenerateVideo host api st sceneId shotId = [].
Proof.
  intros Hshot Hurl. split.
  - unfold Storyboard.generateVideoDisabled. by rewrite Hurl.
  - unfold App.handleGenerateVideo. rewrite Hshot.
    destruct (VideoShot.imageUrl shot) as [url|]; [|done].
    simpl in Hurl. by destruct (String.eqb url EmptyString).
Qed.

Lemma video_generation_requires_image_url_witness :
  Storyboard.generateVideoDisabled
    (VideoShot.mk "s1" 4%Q "dawn" "Slow push in" None IDLE None IDLE true None)
  = true
  ∧ App.handleGenerateVideo Samples.host Samples.video_not_found
      Samples.planned "A" "s1" = [].
Proof.
  apply (video_generation_requires_image_url Samples.host
           Samples.video_not_found Samples.planned "A" "s1"); reflexivity.
Defined.





(** ** Failures of video generation *)

(** C9, at a host whose key dialog rejects.  In [MoreSamples.key_checked]
    the key is verified and shot s2 of scene A has an image.  The video
    service fails with 'Requested entity was not found.'; the handler logs
    the error, clears the key verification and opens the key dialog; the
    dialog rejects, and the handler ends there: the shot keeps [videoStatus]
    [LOADING] and no failure is reported.  At the same state and host a
    failure with another message sets [videoStatus] to [ERROR] and reports
    the failure without opening the dialog. *)
Lemma video_failure_rejected_dialog :
  Session.reachable MoreSamples.key_checked
  ∧ App.apiKeyVerified MoreSamples.key_checked = true
  ∧ not_found_signature (Some "Requested entity was not found.")
  ∧ (∃ request shot',
       App.handleGenerateVideo MoreSamples.closing_host Samples.video_not_found
         MoreSamples.key_checked "A" "s2"
       = [App.UpdateShot "A" "s2" App.videoLoading;
          App.RequestVideo request;
          App.ConsoleError (Some "Requested entity was not found.");
          App.SetApiKeyVerified false;
          App.OpenSelectKey]
       ∧ App.findShot
           (App.state
              (App.run MoreSamples.key_checked
                 (App.handleGenerateVideo MoreSamples.closing_host
                    Samples.video_not_found MoreSamples.key_checked "A" "s2")))
           "A" "s2" = Some shot'
       ∧ VideoShot.videoStatus shot' = LOADING
       ∧ App.error
           (App.run MoreSamples.key_checked
              (App.handleGenerateVideo MoreSamples.closing_host
                 Samples.video_not_found MoreSamples.key_checked "A" "s2"))
         = None)
  ∧ (∃ request shot',
       App.handleGenerateVideo MoreSamples.closing_host MoreSamples.video_overloaded
         MoreSamples.key_checked "A" "s2"
       = [App.UpdateShot "A" "s2" App.videoLoading;
          App.RequestVideo request;
          App.ConsoleError (Some "The model is overloaded.");
          App.UpdateShot "A" "s2" App.videoError;
          App.SetError (Some "Video generation failed: The model is overloaded.")]
       ∧ App.findShot
           (App.state
              (App.run MoreSamples.key_checked
                 (App.handleGenerateVideo MoreSamples.closing_host
                    MoreSamples.video_overloaded MoreSamples.key_checked "A" "s2")))
           "A" "s2" = Some shot'
       ∧ VideoShot.videoStatus shot' = ERROR).
Proof.
  split; [apply more_samples_reachable|].
  split; [reflexivity|]. split.
  { exists "Requested entity was not found.", EmptyString, ".". by split; [|left]. }
  split; do 2 eexists; split_and!; reflexivity.
Qed.

(** * Further properties *)

(** ** The resolver, without assumptions on identifiers *)

(** The two lookups in terms of the search for the identifier. *)
Lemma resolver_found st sceneId shotId k shot :
  list_find (λ s, VideoShot.id s = shotId) (flatten (App.ProjectState.scenes st))
  = Some (k, shot) →
  App.getNextShot st sceneId shotId
  = successor_in (flatten (App.ProjectState.scenes st)) k
  ∧ App.getPreviousShot st sceneId shotId
    = predecessor_in (flatten (App.ProjectState.scenes st)) k.
Proof.
  intros Hfind.
  pose proof (proj1 (list_find_Some _ _ _ _) Hfind) as (Hk & _ & _).
  pose proof (lookup_lt_Some _ _ _ Hk) as Hlt.
  unfold App.getNextShot, App.getPreviousShot, successor_in, predecessor_in,
    JS.findIndex.
  rewrite allShots_flatten. cbv zeta. rewrite Hfind. unfold JS.len. split.
  - destruct (Z.eqb_spec (Z.of_nat k) (-1)) as [?|_]; [lia|]. simpl.
    destruct (Z.ltb_spec (Z.of_nat k)
                (Z.of_nat (length (flatten (App.ProjectState.scenes st))) - 1)).
    + replace (Z.of_nat k + 1) with (Z.of_nat (S k)) by lia. apply get_nat.
    + symmetry. apply lookup_ge_None. lia.
  - destruct k as [|k']; [done|].
    destruct (Z.ltb_spec 0 (Z.of_nat (S k'))); [|lia].
    replace (Z.of_nat (S k') - 1) with (Z.of_nat k') by lia. apply get_nat.
Qed.

Lemma resolver_not_found st sceneId shotId :
  list_find (λ s, VideoShot.id s = shotId) (flatten (App.ProjectState.scenes st))
  = None →
  App.getPreviousShot st sceneId shotId = None
  ∧ App.getNextShot st sceneId shotId = None.
Proof.
  intros Hfind. unfold App.getPreviousShot, App.getNextShot, JS.findIndex.
  rewrite allShots_flatten. cbv zeta. by rewrite Hfind.
Qed.

(** X1: an identifier that no shot of the timeline carries has neither a
    previous nor a next shot. *)
Theorem resolver_unknown_id st sceneId shotId :
  shotId ∉ (VideoShot.id <$> flatten (App.ProjectState.scenes st)) →
  App.getPreviousShot st sceneId shotId = None
  ∧ App.getNextShot st sceneId shotId = None.
Proof.
  intros Hnotin. apply resolver_not_found.
  apply list_find_None, Forall_forall. intros shot Hshot Hid.
  apply Hnotin, list_elem_of_fmap. by exists shot.
Qed.

Lemma resolver_unknown_id_witness :
  App.getPreviousShot (project_of Samples.two_scenes) "A" "s9" = None
  ∧ App.getNextShot (project_of Samples.two_scenes) "A" "s9" = None.
Proof.
  apply (resolver_unknown_id (project_of Samples.two_scenes) "A" "s9").
  apply (bool_decide_unpack _). vm_compute. reflexivity.
Defined.

(** X2: whatever the identifiers, the resolver answers for the first shot of
    the flattened order that carries the identifier: it returns the shots
    next to that first occurrence. *)
Theorem resolver_first_occurrence st sceneId shotId k shot :
  flatten (App.ProjectState.scenes st) !! k = Some shot →
  VideoShot.id shot = shotId →
  (∀ j other, (j < k)%nat →
     flatten (App.ProjectState.scenes st) !! j = Some other →
     VideoShot.id other ≠ shotId) →
  App.getNextShot st sceneId shotId
  = successor_in (flatten (App.ProjectState.scenes st)) k
  ∧ App.getPreviousShot st sceneId shotId
    = predecessor_in (flatten (App.ProjectState.scenes st)) k.
Proof.
  intros Hk Hid Hfirst. apply (resolver_found _ _ _ _ shot).
  apply list_find_Some. split_and!; [done..|].
  intros j other Hj Hlt. by eapply Hfirst.
Qed.

Lemma resolver_first_occurrence_witness :
  App.getNextShot (project_of Samples.twins) "B" "s" = Some Samples.twin_second
  ∧ App.getPreviousShot (project_of Samples.twins) "B" "s" = None.
Proof.
  apply (resolver_first_occurrence (project_of Samples.twins) "B" "s" 0
           Samples.twin_first); [reflexivity..|].
  intros j other Hj. lia.
Defined.

(** X3: with globally unique identifiers the two lookups are inverse to each
    other: the next shot of a shot has that shot as its previous one, and
    the previous shot of a shot has that shot as its next one. *)
Theorem resolver_inverse st sceneId sceneId' shotId :
  unique_shot_ids (App.ProjectState.scenes st) →
  (∀ next, App.getNextShot st sceneId shotId = Some next →
     ∃ shot, App.getPreviousShot st sceneId' (VideoShot.id next) = Some shot
             ∧ VideoShot.id shot = shotId)
  ∧ (∀ prev, App.getPreviousShot st sceneId shotId = Some prev →
       ∃ shot, App.getNextShot st sceneId' (VideoShot.id prev) = Some shot
               ∧ VideoShot.id shot = shotId).
Proof.
  intros Hnd.
  destruct (list_find (λ s, VideoShot.id s = shotId)
              (flatten (App.ProjectState.scenes st))) as [[k shot]|] eqn:Hfind.
  - destruct (resolver_found st sceneId shotId k shot Hfind) as [Hn Hp].
    apply list_find_Some in Hfind as (Hk & Hid & _).
    split.
    + intros next Hnext. rewrite Hn in Hnext. unfold successor_in in Hnext.
      exists shot. split; [|done].
      rewrite (getPreviousShot_at _ _ _ (S k) Hnd Hnext). exact Hk.
    + intros prev Hprev. rewrite Hp in Hprev.
      destruct k as [|k']; [done|]. simpl in Hprev.
      exists shot. split; [|done].
      rewrite (getNextShot_at _ _ _ k' Hnd Hprev). exact Hk.
  - destruct (resolver_not_found st sceneId shotId Hfind) as [Hp Hn].
    split; intros found Hfound; congruence.
Qed.

Lemma resolver_inverse_witness :
  ∃ shot, App.getPreviousShot (project_of Samples.two_scenes) "B" "s3" = Some shot
          ∧ VideoShot.id shot = "s2".
Proof.
  destruct (resolver_inverse (project_of Samples.two_scenes) "A" "B" "s2")
    as [Hnext _].
  - apply (bool_decide_unpack _). vm_compute. reflexivity.
  - apply (Hnext Samples.S3). reflexivity.
Defined.

(** ** [updateShot] and [findShot] *)

Lemma find_satisfies {A} (P : A → Prop) `{∀ x, Decision (P x)} (l : list A) x :
  JS.find P l = Some x → P x.
Proof.
  unfold JS.find. destruct (list_find P l) as [[i y]|] eqn:Hfind; [|done].
  simpl. intros [= <-]. by apply list_find_Some in Hfind as (_ & ? & _).
Qed.

Lemma find_map {A} (P : A → Prop) `{∀ x, Decision (P x)} (f : A → A) (l : list A) :
  (∀ x, P (f x) ↔ P x) → JS.find P (map f l) = f <$> JS.find P l.
Proof.
  intros Hf. unfold JS.find. induction l as [|x l IH]; simpl; [done|].
  pose proof (Hf x) as [Hf1 Hf2].
  destruct (decide (P (f x))) as [Hfx|Hfx], (decide (P x)) as [Hx|Hx];
    [done|exfalso; tauto|exfalso; tauto|].
  revert IH.
  destruct (list_find P (map f l)) as [[i y]|], (list_find P l) as [[j z]|];
    simpl; congruence.
Qed.

Lemma spread_id shot updates :
  VideoShot.id (PartialShot.spread shot updates) = VideoShot.id shot.
Proof. done. Qed.

(** X4: reading a shot after [updateShot]: the shot found under the updated
    key is the earlier one with the updates spread over it, and the shot
    found under any other key is the one found before. *)
Theorem findShot_updateShot sceneId shotId updates prev sceneId' shotId' :
  App.findShot (App.updateShot sceneId shotId updates prev) sceneId' shotId'
  = (λ shot, if decide (sceneId' = sceneId ∧ shotId' = shotId)
             then PartialShot.spread shot updates else shot)
    <$> App.findShot prev sceneId' shotId'.
Proof.
  unfold App.findShot, App.findScene, App.updateShot. simpl.
  rewrite find_map by (intros scene; by case_decide).
  destruct (JS.find (λ s, VideoScene.id s = sceneId') (App.ProjectState.scenes prev))
    as [scene|] eqn:Hscene; simpl; [|done].
  pose proof (find_satisfies _ _ _ Hscene) as Hid. simpl in Hid.
  destruct (decide (VideoScene.id scene ≠ sceneId)) as [Hother|Hsame]; simpl.
  - destruct (JS.find _ (VideoScene.shots scene)) as [shot|]; simpl; [|done].
    rewrite decide_False; [done|]. intros [-> _]. done.
  - assert (sceneId' = sceneId) as ->.
    { rewrite <-Hid. by destruct (decide (VideoScene.id scene = sceneId)). }
    rewrite find_map by (intros shot; by case_decide).
    destruct (JS.find (λ s, VideoShot.id s = shotId') (VideoScene.shots scene))
      as [shot|] eqn:Hshot; simpl; [|done].
    pose proof (find_satisfies _ _ _ Hshot) as Hshot_id. simpl in Hshot_id.
    f_equal. destruct (decide (VideoShot.id shot = shotId)) as [Heq|Hne].
    + rewrite decide_True; [done|]. split; congruence.
    + rewrite decide_False; [done|]. intros [_ ->]. done.
Qed.

(** X5: [updateShot] keeps the shape of the timeline and every identifier:
    the scenes keep their identifiers and their order, and every scene keeps
    the identifiers of its shots in their order; so the flattened order
    carries the same identifiers as before. *)
Theorem updateShot_keeps_identifiers sceneId shotId updates prev :
  (VideoScene.id <$> App.ProjectState.scenes (App.updateShot sceneId shotId updates prev))
  = (VideoScene.id <$> App.ProjectState.scenes prev)
  ∧ ((λ scene, VideoShot.id <$> VideoScene.shots scene)
     <$> App.ProjectState.scenes (App.updateShot sceneId shotId updates prev))
    = ((λ scene, VideoShot.id <$> VideoScene.shots scene)
       <$> App.ProjectState.scenes prev)
  ∧ (VideoShot.id
     <$> flatten (App.ProjectState.scenes (App.updateShot sceneId shotId updates prev)))
    = (VideoShot.id <$> flatten (App.ProjectState.scenes prev)).
Proof.
  unfold App.updateShot. simpl.
  induction (App.ProjectState.scenes prev) as [|scene scenes (IH1 & IH2 & IH3)];
    [done|].
  assert (VideoShot.id
          <$> map (λ shot, if decide (VideoShot.id shot = shotId)
                           then PartialShot.spread shot updates else shot)
                (VideoScene.shots scene)
          = VideoShot.id <$> VideoScene.shots scene) as Hshots.
  { induction (VideoScene.shots scene) as [|shot shots IH]; [done|].
    rewrite map_cons, !fmap_cons. f_equal; [by case_decide|exact IH]. }
  rewrite map_cons, !fmap_cons, !flatten_cons, !fmap_app.
  split_and!.
  - f_equal; [by case_decide|exact IH1].
  - f_equal; [|exact IH2]. case_decide; [done|]. simpl. exact Hshots.
  - f_equal; [|exact IH3]. case_decide; [done|]. simpl. exact Hshots.
Qed.

(** X6: an update under a key that no shot carries changes nothing. *)
Theorem updateShot_missing_key sceneId shotId updates prev :
  (∀ scene shot,
     scene ∈ App.ProjectState.scenes prev → shot ∈ VideoScene.shots scene →
     ¬ (VideoScene.id scene = sceneId ∧ VideoShot.id shot = shotId)) →
  App.updateShot sceneId shotId updates prev = prev.
Proof.
  intros Hmissing. unfold App.updateShot. destruct prev as [file url an scenes].
  simpl in *. f_equal.
  rewrite <-(map_id scenes) at 2. apply map_ext_in.
  intros scene Hscene%list_elem_of_In.
  case_decide as Hid; [done|].
  destruct scene as [id label t0 t1 ly na shots]. simpl in *. f_equal.
  rewrite <-(map_id shots) at 2. apply map_ext_in.
  intros shot Hshot%list_elem_of_In.
  case_decide as Hshot_id; [|done]. exfalso.
  apply (Hmissing _ _ Hscene Hshot). simpl. split; [|done].
  by destruct (decide (id = sceneId)).
Qed.

Lemma updateShot_missing_key_witness :
  App.updateShot "A" "s9" App.imageError (project_of Samples.two_scenes)
  = project_of Samples.two_scenes.
Proof.
  apply (updateShot_missing_key "A" "s9" App.imageError
           (project_of Samples.two_scenes)).
  intros scene shot Hscene Hshot [Hid Hshot_id].
  assert (VideoShot.id shot ∈ VideoShot.id <$> flatten Samples.two_scenes) as Hin.
  { apply list_elem_of_fmap. exists shot. split; [done|].
    apply list_elem_of_In, in_concat. exists (VideoScene.shots scene).
    split; [|by apply list_elem_of_In].
    apply in_map, list_elem_of_In, Hscene. }
  rewrite Hshot_id in Hin. revert Hin.
  apply (bool_decide_unpack _). vm_compute. reflexivity.
Defined.

(** X7: updates of shots with different keys commute: the order in which two
    handlers commit to different shots does not matter. *)
Theorem updateShot_commute sceneId1 shotId1 updates1 sceneId2 shotId2 updates2 prev :
  ¬ (sceneId1 = sceneId2 ∧ shotId1 = shotId2) →
  App.updateShot sceneId1 shotId1 updates1
    (App.updateShot sceneId2 shotId2 updates2 prev)
  = App.updateShot sceneId2 shotId2 updates2
      (App.updateShot sceneId1 shotId1 updates1 prev).
Proof.
  intros Hkeys. unfold App.updateShot. simpl. f_equal.
  rewrite !map_map. apply map_ext. intros scene.
  destruct (decide (VideoScene.id scene ≠ sceneId1)) as [H1|H1],
    (decide (VideoScene.id scene ≠ sceneId2)) as [H2|H2]; simpl;
    repeat (first [rewrite decide_True by done|rewrite decide_False by done];
            simpl);
    try done.
  f_equal. rewrite !map_map. apply map_ext. intros shot.
  destruct (decide (VideoShot.id shot = shotId1)) as [E1|E1],
    (decide (VideoShot.id shot = shotId2)) as [E2|E2]; simpl;
    repeat (first [rewrite decide_True by done|rewrite decide_False by done];
            simpl);
    try done.
  exfalso. apply Hkeys. split; [|congruence].
  destruct (decide (VideoScene.id scene = sceneId1)) as [<-|?]; [|done].
  by destruct (decide (VideoScene.id scene = sceneId2)).
Qed.

Lemma updateShot_commute_witness :
  App.updateShot "A" "s1" App.imageLoading
    (App.updateShot "B" "s3" App.videoError (project_of Samples.two_scenes))
  = App.updateShot "B" "s3" App.videoError
      (App.updateShot "A" "s1" App.imageLoading (project_of Samples.two_scenes)).
Proof.
  apply (updateShot_commute "A" "s1" App.imageLoading "B" "s3" App.videoError
           (project_of Samples.two_scenes)).
  intros [? _]. discriminate.
Defined.

(** X8: of two completed generations for the same shot and medium, the one
    committed last wins: the earlier URL is overwritten and leaves no
    trace. *)
Theorem last_commit_wins sceneId shotId earlier later prev :
  App.updateShot sceneId shotId (App.imageSuccess later)
    (App.updateShot sceneId shotId (App.imageSuccess earlier) prev)
  = App.updateShot sceneId shotId (App.imageSuccess later) prev
  ∧ App.updateShot sceneId shotId (App.videoSuccess later)
      (App.updateShot sceneId shotId (App.videoSuccess earlier) prev)
    = App.updateShot sceneId shotId (App.videoSuccess later) prev.
Proof.
  unfold App.updateShot. simpl. split; f_equal; rewrite map_map;
    apply map_ext; intros scene;
    (destruct (decide (VideoScene.id scene ≠ sceneId)); simpl;
     [by rewrite decide_True by done|]);
    rewrite decide_False by done; simpl; f_equal; rewrite map_map;
    apply map_ext; intros shot;
    (destruct (decide (VideoShot.id shot = shotId)); simpl;
     [by rewrite decide_True by done|by rewrite decide_False by done]).
Qed.

(** ** What one handler run commits to the timeline *)

Lemma Forall2_map_r {A B} (R : A → B → Prop) (g : B → B) (l : list A) (k : list B) :
  Forall2 (λ x y, R x (g y)) l k → Forall2 R l (map g k).
Proof. induction 1; simpl; by constructor. Qed.

Lemma spread_all_id shot commits :
  VideoShot.id (foldl PartialShot.spread shot commits) = VideoShot.id shot.
Proof.
  revert shot. induction commits as [|u commits IH]; intros shot; simpl; [done|].
  by rewrite IH.
Qed.

(** Several updates under one key, shot by shot. *)
Lemma updateShotAll_pointwise sceneId shotId commits prev :
  Forall2
    (λ old new,
       VideoScene.id new = VideoScene.id old
       ∧ Forall2
           (λ shot shot',
              shot' = if decide (VideoScene.id old = sceneId
                                 ∧ VideoShot.id shot = shotId)
                      then foldl PartialShot.spread shot commits
                      else shot)
           (VideoScene.shots old) (VideoScene.shots new))
    (App.ProjectState.scenes prev)
    (App.ProjectState.scenes (updateShotAll sceneId shotId commits prev)).
Proof.
  unfold updateShotAll.
  induction commits as [|u commits IH] using rev_ind.
  - simpl. apply Forall_Forall2_diag, Forall_forall. intros scene _.
    split; [done|]. apply Forall_Forall2_diag, Forall_forall. intros shot _.
    by case_decide.
  - rewrite foldl_app. simpl. unfold App.updateShot at 1. simpl.
    apply Forall2_map_r. eapply Forall2_impl; [exact IH|].
    intros old mid [Hid Hshots]. simpl.
    destruct (decide (VideoScene.id mid ≠ sceneId)) as [Hother|Hsame]; simpl.
    + split; [done|]. eapply Forall2_impl; [exact Hshots|].
      intros shot shot' ->.
      destruct (decide (VideoScene.id old = sceneId ∧ VideoShot.id shot = shotId))
        as [[? _]|_]; [congruence|done].
    + assert (VideoScene.id old = sceneId) as Hold.
      { rewrite <-Hid. by destruct (decide (VideoScene.id mid = sceneId)). }
      split; [done|]. apply Forall2_map_r. eapply Forall2_impl; [exact Hshots|].
      intros shot shot' ->.
      destruct (decide (VideoScene.id old = sceneId ∧ VideoShot.id shot = shotId))
        as [[_ Hshot]|Hkey].
      * rewrite decide_True by (by rewrite spread_all_id).
        by rewrite foldl_app.
      * rewrite decide_False; [done|]. intros Hshot. by apply Hkey.
Qed.

(** The updates a run of [handleGenerateImage] commits. *)
Lemma handleGenerateImage_commits api st sceneId shotId :
  ∃ commits,
    App.state (App.run st (App.handleGenerateImage api st sceneId shotId))
    = updateShotAll sceneId shotId commits (App.state st)
    ∧ (commits = []
       ∨ commits = [App.imageLoading; App.imageError]
       ∨ ∃ data, commits = [App.imageLoading;
                            App.imageSuccess ("data:image/png;base64," +:+ data)]).
Proof.
  unfold App.handleGenerateImage.
  destruct (App.findShot _ _ _) as [shot|]; [|exists []; by split; [|left]].
  destruct (App.ProjectState.analysis _) as [analysis|];
    [|exists []; by split; [|left]].
  destruct (App.findScene _ _) as [scene|]; [|exists []; by split; [|left]].
  unfold GeminiService.generateShotImage.
  destruct (api _) as [m|parts].
  { exists [App.imageLoading; App.imageError]. split; [done|]. right. by left. }
  destruct (JS.find _ parts) as [[data|]|].
  - eexists [App.imageLoading; App.imageSuccess _]. split; [done|].
    right. right. by eexists.
  - exists [App.imageLoading; App.imageError]. split; [done|]. right. by left.
  - exists [App.imageLoading; App.imageError]. split; [done|]. right. by left.
Qed.

(** The updates a run of [handleGenerateVideo] commits. *)
Lemma handleGenerateVideo_commits host api st sceneId shotId :
  ∃ commits,
    App.state (App.run st (App.handleGenerateVideo host api st sceneId shotId))
    = updateShotAll sceneId shotId commits (App.state st)
    ∧ (commits = []
       ∨ commits = [App.videoLoading]
       ∨ commits = [App.videoLoading; App.videoError]
       ∨ ∃ videoUrl, commits = [App.videoLoading; App.videoSuccess videoUrl]).
Proof.
  unfold App.handleGenerateVideo.
  destruct (App.findShot _ _ _) as [shot|]; [|exists []; by split; [|left]].
  destruct (VideoShot.imageUrl shot) as [imageUrl|];
    [|exists []; by split; [|left]].
  destruct (String.eqb imageUrl EmptyString); [exists []; by split; [|left]|].
  unfold App.handleSelectKey, App.selectKeyRejects.
  destruct (App.apiKeyVerified st), (App.canOpenSelectKey host),
    (App.openSelectKey host) as [dismissed|[]],
    (GeminiService.generateShotVideo _ _ _ _) as [[m|videoUrl]|];
    try destruct (App.keyVerificationLost m);
    first
      [ exists []; split; [reflexivity|by left]
      | exists [App.videoLoading]; split; [reflexivity|right; by left]
      | exists [App.videoLoading; App.videoError];
        split; [reflexivity|right; right; by left]
      | exists [App.videoLoading; App.videoSuccess videoUrl];
        split; [reflexivity|right; right; right; by eexists] ].
Qed.

(** X9: the two media of a shot are independent.  Whatever the image service
    answers, a run of [handleGenerateImage] leaves the video URL and status,
    the prompts, the duration and the end-frame flag of every shot as they
    were, and adds or removes no shot. *)
Theorem image_generation_keeps_video_state api st sceneId shotId :
  Forall2
    (λ old new,
       VideoScene.id new = VideoScene.id old
       ∧ Forall2
           (λ shot shot',
              VideoShot.id shot' = VideoShot.id shot
              ∧ VideoShot.duration shot' = VideoShot.duration shot
              ∧ VideoShot.visualPrompt shot' = VideoShot.visualPrompt shot
              ∧ VideoShot.motionPrompt shot' = VideoShot.motionPrompt shot
              ∧ VideoShot.videoUrl shot' = VideoShot.videoUrl shot
              ∧ VideoShot.videoStatus shot' = VideoShot.videoStatus shot
              ∧ VideoShot.useNextAsEndFrame shot' = VideoShot.useNextAsEndFrame shot)
           (VideoScene.shots old) (VideoScene.shots new))
    (App.ProjectState.scenes (App.state st))
    (App.ProjectState.scenes
       (App.state (App.run st (App.handleGenerateImage api st sceneId shotId)))).
Proof.
  destruct (handleGenerateImage_commits api st sceneId shotId)
    as (commits & -> & Hcommits).
  eapply Forall2_impl; [apply updateShotAll_pointwise|].
  intros old new [Hid Hshots]. split; [done|].
  eapply Forall2_impl; [exact Hshots|].
  intros shot shot' ->.
  destruct (decide (VideoScene.id old = sceneId ∧ VideoShot.id shot = shotId));
    [|done].
  by destruct Hcommits as [->|[->|[data ->]]].
Qed.

(** X10: conversely, whatever the video service does, a run of
    [handleGenerateVideo] leaves the image URL and status, the prompts, the
    duration and the end-frame flag of every shot as they were, and adds or
    removes no shot. *)
Theorem video_generation_keeps_image_state host api st sceneId shotId :
  Forall2
    (λ old new,
       VideoScene.id new = VideoScene.id old
       ∧ Forall2
           (λ shot shot',
              VideoShot.id shot' = VideoShot.id shot
              ∧ VideoShot.duration shot' = VideoShot.duration shot
              ∧ VideoShot.visualPrompt shot' = VideoShot.visualPrompt shot
              ∧ VideoShot.motionPrompt shot' = VideoShot.motionPrompt shot
              ∧ VideoShot.imageUrl shot' = VideoShot.imageUrl shot
              ∧ VideoShot.imageStatus shot' = VideoShot.imageStatus shot
              ∧ VideoShot.useNextAsEndFrame shot' = VideoShot.useNextAsEndFrame shot)
           (VideoScene.shots old) (VideoScene.shots new))
    (App.ProjectState.scenes (App.state st))
    (App.ProjectState.scenes
       (App.state (App.run st (App.handleGenerateVideo host api st sceneId shotId)))).
Proof.
  destruct (handleGenerateVideo_commits host api st sceneId shotId)
    as (commits & -> & Hcommits).
  eapply Forall2_impl; [apply updateShotAll_pointwise|].
  intros old new [Hid Hshots]. split; [done|].
  eapply Forall2_impl; [exact Hshots|].
  intros shot shot' ->.
  destruct (decide (VideoScene.id old = sceneId ∧ VideoShot.id shot = shotId));
    [|done].
  by destruct Hcommits as [->|[->|[->|[videoUrl ->]]]].
Qed.

(** ** Completed generations *)

(** X11: when the image generation for a shot succeeds (the handler commits
    an image URL), the URL is a PNG data URL; after the run every shot with
    the handler's identifiers has that URL, [imageStatus] [SUCCESS] and no
    error of its own, every other shot is unchanged, and the project-level
    error message is what it was before (an earlier message is not
    dismissed). *)
Theorem successful_image_generation api st sceneId shotId imageUrl :
  App.UpdateShot sceneId shotId (App.imageSuccess imageUrl)
  ∈ App.handleGenerateImage api st sceneId shotId →
  png_data_url imageUrl
  ∧ App.error (App.run st (App.handleGenerateImage api st sceneId shotId))
    = App.error st
  ∧ Forall2
      (λ old new,
         VideoScene.id new = VideoScene.id old
         ∧ Forall2
             (λ shot shot',
                if decide (VideoScene.id old = sceneId ∧ VideoShot.id shot = shotId)
                then VideoShot.imageUrl shot' = Some imageUrl
                     ∧ VideoShot.imageStatus shot' = SUCCESS
                     ∧ VideoShot.error shot' = None
                else shot' = shot)
             (VideoScene.shots old) (VideoScene.shots new))
      (App.ProjectState.scenes (App.state st))
      (App.ProjectState.scenes
         (App.state (App.run st (App.handleGenerateImage api st sceneId shotId)))).
Proof.
  unfold App.handleGenerateImage.
  destruct (App.findShot _ _ _) as [shot|]; [|by set_unfold].
  destruct (App.ProjectState.analysis _) as [analysis|]; [|by set_unfold].
  destruct (App.findScene _ _) as [scene|]; [|by set_unfold].
  destruct (GeminiService.generateShotImage _ _ _ _ _ _) as [m|url] eqn:Hgen.
  { set_unfold. intros; destruct_or!; discriminate. }
  intros Hin.
  assert (url = imageUrl) as ->.
  { set_unfold. destruct_or!; try discriminate.
    unfold App.imageSuccess in *. congruence. }
  split_and!.
  - unfold GeminiService.generateShotImage in Hgen.
    repeat case_match; simplify_eq. by eexists.
  - done.
  - simpl. eapply Forall2_impl;
      [apply (updateShot_twice sceneId shotId App.imageLoading
                (App.imageSuccess imageUrl))|].
    intros old new [Hid Hshots]. split; [done|].
    eapply Forall2_impl; [exact Hshots|].
    intros s s' ->.
    by destruct (decide (VideoScene.id old = sceneId ∧ VideoShot.id s = shotId)).
Qed.

Lemma successful_image_generation_witness :
  png_data_url "data:image/png;base64,TWO"
  ∧ App.error Samples.s2_drawn = App.error Samples.planned.
Proof.
  destruct (successful_image_generation (Samples.image_of "TWO") Samples.planned
              "A" "s2" "data:image/png;base64,TWO") as (Hurl & Herror & _).
  - apply (list_elem_of_lookup_2 _ 2%nat). reflexivity.
  - split; [exact Hurl|exact Herror].
Defined.

(** X12: when the video generation for a shot succeeds (the handler commits
    a video URL), after the run every shot with the handler's identifiers has
    that URL, [videoStatus] [SUCCESS], no error of its own and the image it
    had; every other shot is unchanged, and the project-level error message
    is what it was before. *)
Theorem successful_video_generation host api st sceneId shotId videoUrl :
  App.UpdateShot sceneId shotId (App.videoSuccess videoUrl)
  ∈ App.handleGenerateVideo host api st sceneId shotId →
  App.error (App.run st (App.handleGenerateVideo host api st sceneId shotId))
  = App.error st
  ∧ Forall2
      (λ old new,
         VideoScene.id new = VideoScene.id old
         ∧ Forall2
             (λ shot shot',
                if decide (VideoScene.id old = sceneId ∧ VideoShot.id shot = shotId)
                then VideoShot.videoUrl shot' = Some videoUrl
                     ∧ VideoShot.videoStatus shot' = SUCCESS
                     ∧ VideoShot.error shot' = None
                     ∧ VideoShot.imageUrl shot' = VideoShot.imageUrl shot
                     ∧ VideoShot.imageStatus shot' = VideoShot.imageStatus shot
                else shot' = shot)
             (VideoScene.shots old) (VideoScene.shots new))
      (App.ProjectState.scenes (App.state st))
      (App.ProjectState.scenes
         (App.state (App.run st (App.handleGenerateVideo host api st sceneId shotId)))).
Proof.
  unfold App.handleGenerateVideo.
  destruct (App.findShot _ _ _) as [shot|]; [|by set_unfold].
  destruct (VideoShot.imageUrl shot) as [imageUrl|]; [|by set_unfold].
  destruct (String.eqb imageUrl EmptyString); [by set_unfold|].
  unfold App.handleSelectKey, App.selectKeyRejects.
  intros Hin.
  match goal with
  | |- App.error (App.run st ?trace) = _ ∧ _ =>
      assert (App.error (App.run st trace) = App.error st
              ∧ App.state (App.run st trace)
                = App.updateShot sceneId shotId (App.videoSuccess videoUrl)
                    (App.updateShot sceneId shotId App.videoLoading (App.state st)))
        as [Herror ->]
  end.
  { destruct (App.apiKeyVerified st), (App.canOpenSelectKey host),
      (App.openSelectKey host) as [dismissed|[]],
      (GeminiService.generateShotVideo _ _ _ _) as [[m|url]|];
      try destruct (App.keyVerificationLost m);
      set_unfold in Hin; destruct_or?; try done;
      unfold App.videoSuccess, App.videoLoading, App.videoError in *;
      simplify_eq; by split. }
  split; [done|].
  eapply Forall2_impl;
    [apply (updateShot_twice sceneId shotId App.videoLoading
              (App.videoSuccess videoUrl))|].
  intros old new [Hid Hshots]. split; [done|].
  eapply Forall2_impl; [exact Hshots|].
  intros s s' ->.
  by destruct (decide (VideoScene.id old = sceneId ∧ VideoShot.id s = shotId)).
Qed.

Lemma successful_video_generation_witness :
  App.error
    (App.run Samples.s3_drawn
       (App.handleGenerateVideo Samples.host MoreSamples.video_done
          Samples.s3_drawn "A" "s2"))
  = App.error Samples.s3_drawn.
Proof.
  refine (proj1 (successful_video_generation Samples.host MoreSamples.video_done
                   Samples.s3_drawn "A" "s2" "blob:clip" _)).
  apply (list_elem_of_lookup_2 _ 4%nat). reflexivity.
Defined.

(** ** Data URLs *)

Lemma split_cons c s : ∃ first rest, JS.split c s = first :: rest.
Proof.
  induction s as [|a s (first & rest & IH)]; simpl; [by eexists _, _|].
  destruct (Ascii.eqb a c); [by eexists _, _|]. rewrite IH. by eexists _, _.
Qed.

(** The payload of a PNG data URL is the part of its data before the first
    comma. *)
Lemma payload_png_data_url data :
  JS.payload ("data:image/png;base64," +:+ data) = head (JS.split JS.comma data).
Proof.
  unfold JS.payload. simpl. change (EmptyString +:+ data) with data.
  by destruct (split_cons JS.comma data) as (first & rest & ->).
Qed.

Lemma split_without_separator data :
  JS.includes "," data = false → JS.split JS.comma data = [data].
Proof.
  induction data as [|a data IH]; [done|].
  simpl. intros Hinc. apply orb_false_iff in Hinc as [Hhead Htail].
  destruct (Ascii.eqb_spec a JS.comma) as [->|Hne].
  - simpl in Hhead. by destruct data.
  - by rewrite (IH Htail).
Qed.

(** X13: the image data comes back unchanged.  The URL that
    [generateShotImage] resolves with is a PNG data URL, and when its data
    holds no comma (base64 never does), the reference part that a later image
    request builds from that URL and the seed image of a video request carry
    exactly that data. *)
Theorem image_data_round_trip api shot analysis lyrics narrative prev url :
  GeminiService.generateShotImage api shot analysis lyrics narrative prev
  = Resolved url →
  ∃ data,
    url = "data:image/png;base64," +:+ data
    ∧ (JS.includes "," data = false →
       GeminiService.referencePart (Some url)
       = [GeminiService.InlineData "image/png" (Some data)]
       ∧ ∀ other next,
           GeminiService.Frame.imageBytes
             (GeminiService.VideoRequest.image
                (GeminiService.shotVideoRequest other url next))
           = Some data).
Proof.
  unfold GeminiService.generateShotImage. intros Hgen.
  repeat case_match; simplify_eq.
  eexists. split; [done|]. intros Hcomma. split.
  - rewrite referencePart_truthy by done.
    by rewrite payload_png_data_url, (split_without_separator _ Hcomma).
  - intros other next.
    cbn [GeminiService.shotVideoRequest GeminiService.VideoRequest.image
         GeminiService.Frame.imageBytes].
    by rewrite payload_png_data_url, (split_without_separator _ Hcomma).
Qed.

Lemma image_data_round_trip_witness :
  ∃ data,
    "data:image/png;base64,TWO" = "data:image/png;base64," +:+ data
    ∧ (JS.includes "," data = false →
       GeminiService.referencePart (Some "data:image/png;base64,TWO")
       = [GeminiService.InlineData "image/png" (Some data)]
       ∧ ∀ other next,
           GeminiService.Frame.imageBytes
             (GeminiService.VideoRequest.image
                (GeminiService.shotVideoRequest other
                   "data:image/png;base64,TWO" next))
           = Some data).
Proof.
  apply (image_data_round_trip (Samples.image_of "TWO") Samples.S2
           Samples.cinematic_analysis "lyrics" "narrative" None).
  reflexivity.
Defined.

(** ** Invariants of sessions *)

Lemma mapG_Forall {A B} (f : A → GeminiService.Gen B) (P : A → Prop) (Q : B → Prop) :
  (∀ a calls, P a → Q (fst (f a calls))) →
  ∀ arr calls, Forall P arr → Forall Q (fst (GeminiService.mapG f arr calls)).
Proof.
  intros Hf arr. induction arr as [|a arr IH]; intros calls Harr; simpl.
  - constructor.
  - apply Forall_cons in Harr as [Ha Harr].
    unfold GeminiService.bind.
    pose proof (Hf a calls Ha) as Hb. destruct (f a calls) as [b calls1].
    pose proof (IH calls1 Harr) as Hrest.
    destruct (GeminiService.mapG f arr calls1) as [bs calls2].
    by constructor.
Qed.

Lemma planShot_as_planned randomId videoMode raw calls :
  on_schema raw →
  as_planned (fst (GeminiService.planShot randomId videoMode raw calls)).
Proof.
  intros (Himage & Hvideo & Herror).
  unfold GeminiService.planShot, GeminiService.bind.
  destruct (GeminiService.idOrFresh _ _ calls). by split_and!.
Qed.

Lemma mapScenes_as_planned randomId analysis raws calls :
  scenes_on_schema raws →
  Forall (λ scene, Forall as_planned (VideoScene.shots scene))
    (fst (GeminiService.mapScenes randomId analysis raws calls)).
Proof.
  unfold GeminiService.mapScenes, scenes_on_schema.
  apply mapG_Forall. intros raw n Hraw.
  unfold GeminiService.planScene, GeminiService.bind.
  destruct (GeminiService.idOrFresh _ _ n) as [id n1].
  pose proof (mapG_Forall _ on_schema as_planned
                (λ rawShot k, planShot_as_planned randomId
                   (VisualIdentity.videoMode (ProjectAnalysis.visualIdentity analysis))
                   rawShot k)
                (default [] (GeminiService.RawScene.shots raw)) n1 Hraw) as Hshots.
  by destruct (GeminiService.mapG _ _ n1) as [shots n2].
Qed.

(** In a session on the schema, every timeline a handler installs is
    planned without URLs or empty, and every update it passes to
    [updateShot] is one of the nine issued forms. *)
Lemma handler_calls_issued inv snapshot a :
  invocation_on_schema inv →
  a ∈ Session.actions inv snapshot →
  match a with
  | App.UpdateShot _ _ updates => issued_update updates
  | App.SetAnalysisAndScenes _ scenes =>
      Forall (λ scene, Forall as_planned (VideoScene.shots scene)) scenes
  | _ => True
  end.
Proof.
  destruct inv; simpl; intros Hschema.
  - unfold App.checkKey. case_match; each_call.
  - unfold App.handleSelectKey. repeat case_match; each_call.
  - unfold App.handleFileUpload. case_match; each_call; constructor.
  - unfold App.handleRegenerateStructure.
    destruct (App.ProjectState.audioFile _); [|each_call].
    destruct response as [m| |m|mapped m|raws];
      [simpl; each_call| simpl; each_call| simpl; each_call| |].
    { rewrite planScenes_throws. each_call. }
    rewrite planScenes_data. each_call; by apply mapScenes_as_planned.
  - each_call.
  - each_call.
  - each_call.
  - set_unfold; intros; destruct_or?; subst; try done; constructor.
  - set_unfold; intros; destruct_or?; subst; try done; constructor.
  - set_unfold; intros; destruct_or?; subst; try done; constructor.
  - unfold App.handleGenerateImage, GeminiService.generateShotImage.
    repeat case_match; set_unfold; intros; destruct_or?; subst; simpl;
      try done; simplify_eq; constructor.
  - unfold App.handleGenerateVideo, App.handleSelectKey, App.selectKeyRejects.
    repeat case_match; set_unfold; intros; destruct_or?; subst; simpl;
      try done; simplify_eq; constructor.
Qed.

(** Sessions on the schema are sessions. *)
Lemma on_schema_reachable st : reachable_on_schema st → Session.reachable st.
Proof.
  induction 1 as [|st snapshot inv a _ IH _ IHsnapshot _ Ha].
  - constructor.
  - by eapply Session.reachable_action.
Qed.

Lemma on_schema_calls snapshot inv trace live :
  invocation_on_schema inv →
  reachable_on_schema snapshot → reachable_on_schema live →
  (∀ a, a ∈ trace → a ∈ Session.actions inv snapshot) →
  reachable_on_schema (App.run live trace).
Proof.
  intros Hinv Hsnap. unfold App.run. revert live.
  induction trace as [|a trace IH]; intros live Hlive Hin; simpl; [done|].
  apply IH.
  - eapply on_schema_action; [exact Hlive|exact Hsnap|exact Hinv|].
    apply Hin. by left.
  - intros b Hb. apply Hin. by right.
Qed.

Lemma on_schema_run st inv :
  invocation_on_schema inv → reachable_on_schema st →
  reachable_on_schema (App.run st (Session.actions inv st)).
Proof. intros Hinv Hst. by eapply on_schema_calls. Qed.

Lemma samples_on_schema :
  reachable_on_schema Samples.s3_drawn ∧ reachable_on_schema Samples.s2_failed.
Proof.
  assert (reachable_on_schema Samples.uploaded) as H1
    by (by apply on_schema_run; [|constructor]).
  assert (reachable_on_schema Samples.planned) as H2.
  { apply on_schema_run; [|done]. repeat constructor. }
  assert (reachable_on_schema Samples.s2_drawn) as H3 by by apply on_schema_run.
  assert (reachable_on_schema Samples.s3_drawn) as H4 by by apply on_schema_run.
  assert (reachable_on_schema Samples.s2_failed) as H5 by by apply on_schema_run.
  done.
Qed.

(** A property of shots that planning on the schema establishes and every
    issued update preserves holds for all shots of all states that sessions
    on the schema reach. *)
Lemma reachable_shots (P : VideoShot.t → Prop) :
  (∀ shot, as_planned shot → P shot) →
  (∀ shot updates, P shot → issued_update updates →
     P (PartialShot.spread shot updates)) →
  ∀ st scene shot,
    reachable_on_schema st →
    scene ∈ App.ProjectState.scenes (App.state st) →
    shot ∈ VideoScene.shots scene → P shot.
Proof.
  intros Hplanned Hupdate.
  enough (∀ st, reachable_on_schema st →
            Forall (λ scene, Forall P (VideoScene.shots scene))
              (App.ProjectState.scenes (App.state st))) as Hall.
  { intros st scene shot Hst Hscene Hshot.
    pose proof (Hall st Hst) as H. rewrite Forall_forall in H.
    pose proof (H scene Hscene) as H'. rewrite Forall_forall in H'. eauto. }
  induction 1 as [|st snapshot inv a _ IH _ _ Hinv Ha]; [constructor|].
  apply handler_calls_issued in Ha; [|done].
  destruct a; simpl in *; try done.
  - eapply Forall_impl; [exact Ha|]. intros scene Hscene.
    eapply Forall_impl; [exact Hscene|]. eauto.
  - unfold App.updateShot. simpl. apply List.Forall_map.
    eapply Forall_impl; [exact IH|]. intros scene Hscene. simpl.
    case_decide; [done|]. simpl. apply List.Forall_map.
    eapply Forall_impl; [exact Hscene|]. intros shot Hshot. simpl.
    case_decide; [by apply Hupdate|done].
Qed.

(** X14: no handler ever records an error on a shot: in every state reached
    by a session whose planning responses keep to the response schema (their
    shots carry no [imageUrl], [videoUrl] or [error]), the [error] field of
    every shot is unset; failures are reported through the project-level
    message only. *)
Theorem shot_error_never_set st scene shot :
  reachable_on_schema st →
  scene ∈ App.ProjectState.scenes (App.state st) →
  shot ∈ VideoScene.shots scene →
  VideoShot.error shot = None.
Proof.
  apply (reachable_shots (λ shot, VideoShot.error shot = None)).
  - by intros s (_ & _ & _ & _ & ?).
  - intros s updates Hs Hissued. by destruct Hissued.
Qed.

Lemma shot_error_never_set_witness :
  VideoShot.error
    (VideoShot.mk "s2" 4%Q "river" "Slow push in"
       (Some "data:image/png;base64,TWO") ERROR None IDLE true None) = None.
Proof.
  apply (shot_error_never_set Samples.s2_failed
           (VideoScene.mk "A" "Verse" "00:00" "00:15" "lyrics" "narrative"
              [VideoShot.mk "s1" 4%Q "dawn" "Slow push in"
                 None IDLE None IDLE true None;
               VideoShot.mk "s2" 4%Q "river" "Slow push in"
                 (Some "data:image/png;base64,TWO") ERROR None IDLE true None])).
  - apply samples_on_schema.
  - apply (list_elem_of_lookup_2 _ 0%nat). reflexivity.
  - apply (list_elem_of_lookup_2 _ 1%nat). reflexivity.
Defined.

(** X15: a URL only ever appears through a completed generation: in every
    state reached by a session whose planning responses keep to the response
    schema, a shot whose [imageStatus] is [IDLE] has no [imageUrl], a shot
    whose [videoStatus] is [IDLE] has no [videoUrl], and every [imageUrl]
    that is stored is a PNG data URL. *)
Theorem reachable_urls st scene shot :
  reachable_on_schema st →
  scene ∈ App.ProjectState.scenes (App.state st) →
  shot ∈ VideoScene.shots scene →
  (VideoShot.imageStatus shot = IDLE → VideoShot.imageUrl shot = None)
  ∧ (VideoShot.videoStatus shot = IDLE → VideoShot.videoUrl shot = None)
  ∧ (∀ url, VideoShot.imageUrl shot = Some url → png_data_url url).
Proof.
  apply (reachable_shots
           (λ shot,
              (VideoShot.imageStatus shot = IDLE → VideoShot.imageUrl shot = None)
              ∧ (VideoShot.videoStatus shot = IDLE → VideoShot.videoUrl shot = None)
              ∧ (∀ url, VideoShot.imageUrl shot = Some url → png_data_url url))).
  - intros s (Hurl & _ & Hvideo & _). split_and!; [done..|].
    intros url. by rewrite Hurl.
  - intros s updates (Himage & Hvideo & Hdata) Hissued.
    destruct Hissued; simpl; split_and!; try done.
    intros url [= <-]. by eexists.
Qed.

Lemma reachable_urls_witness :
  png_data_url "data:image/png;base64,THREE".
Proof.
  destruct (reachable_urls Samples.s2_failed
              (VideoScene.mk "B" "Verse" "00:00" "00:15" "lyrics" "narrative"
                 [VideoShot.mk "s3" 4%Q "temple" "Slow push in"
                    (Some "data:image/png;base64,THREE") SUCCESS None IDLE true None])
              (VideoShot.mk "s3" 4%Q "temple" "Slow push in"
                 (Some "data:image/png;base64,THREE") SUCCESS None IDLE true None))
    as (_ & _ & Hdata).
  - apply samples_on_schema.
  - apply (list_elem_of_lookup_2 _ 1%nat). reflexivity.
  - apply (list_elem_of_lookup_2 _ 0%nat). reflexivity.
  - by apply Hdata.
Defined.

Lemma flatten_elem_of scenes shot :
  shot ∈ flatten scenes ↔
  ∃ scene, scene ∈ scenes ∧ shot ∈ VideoScene.shots scene.
Proof.
  unfold flatten. rewrite list_elem_of_In, in_concat. split.
  - intros (shots & Hshots & Hshot).
    apply in_map_iff in Hshots as (scene & <- & Hscene).
    exists scene. split; by apply list_elem_of_In.
  - intros (scene & Hscene & Hshot). exists (VideoScene.shots scene).
    split; [|by apply list_elem_of_In].
    apply in_map. by apply list_elem_of_In.
Qed.

Lemma find_elem_of {A} (P : A → Prop) `{∀ x, Decision (P x)} (l : list A) x :
  JS.find P l = Some x → x ∈ l.
Proof.
  unfold JS.find. destruct (list_find P l) as [[i y]|] eqn:Hfind; [|done].
  simpl. intros [= <-]. apply list_find_Some in Hfind as (Hi & _).
  by eapply list_elem_of_lookup_2.
Qed.

Lemma findShot_elem_of st sceneId shotId shot :
  App.findShot st sceneId shotId = Some shot →
  shot ∈ flatten (App.ProjectState.scenes st).
Proof.
  unfold App.findShot, App.findScene.
  destruct (JS.find _ (App.ProjectState.scenes st)) as [scene|] eqn:Hscene;
    simpl; [|done].
  intros Hshot. apply flatten_elem_of. exists scene.
  split; by eapply find_elem_of.
Qed.

Lemma getNextShot_elem_of st sceneId shotId next :
  App.getNextShot st sceneId shotId = Some next →
  next ∈ flatten (App.ProjectState.scenes st).
Proof.
  unfold App.getNextShot. rewrite allShots_flatten. cbv zeta.
  case_match; [|done]. apply get_elem_of.
Qed.

Lemma reachable_image_url st shot url :
  reachable_on_schema st →
  shot ∈ flatten (App.ProjectState.scenes (App.state st)) →
  VideoShot.imageUrl shot = Some url → png_data_url url.
Proof.
  intros Hst (scene & Hscene & Hshot)%flatten_elem_of. revert url.
  revert st scene shot Hst Hscene Hshot.
  apply (reachable_shots
           (λ shot, ∀ url, VideoShot.imageUrl shot = Some url → png_data_url url)).
  - intros s (Hurl & _) url. by rewrite Hurl.
  - intros s updates Hs Hissued. destruct Hissued; simpl; try done.
    intros url [= <-]. by eexists.
Qed.

Lemma payload_defined url : png_data_url url → is_Some (JS.payload url).
Proof.
  intros [data ->]. rewrite payload_png_data_url.
  destruct (split_cons JS.comma data) as (first & rest & ->). by eexists.
Qed.

(** X16: in every state reached by a session whose planning responses keep
    to the response schema, a video request that [handleGenerateVideo] issues
    carries its images: the seed image bytes are defined and so are the bytes
    of the end frame when one is attached (the [split(',')[1]] of the stored
    URLs is never [undefined]). *)
Theorem video_request_images_defined host api st sceneId shotId request :
  reachable_on_schema st →
  requested_video (App.handleGenerateVideo host api st sceneId shotId)
  = Some request →
  is_Some (GeminiService.Frame.imageBytes
             (GeminiService.VideoRequest.image request))
  ∧ (∀ frame, GeminiService.VideoRequest.lastFrame request = Some frame →
       is_Some (GeminiService.Frame.imageBytes frame)).
Proof.
  intros Hst. unfold App.handleGenerateVideo.
  destruct (App.findShot _ _ _) as [shot|] eqn:Hshot; [|done].
  destruct (VideoShot.imageUrl shot) as [imageUrl|] eqn:Hurl; [|done].
  destruct (String.eqb imageUrl EmptyString); [done|].
  unfold App.handleSelectKey, App.selectKeyRejects.
  assert (png_data_url imageUrl) as Hdata
    by eauto using reachable_image_url, findShot_elem_of.
  intros Hrequest.
  assert (request = GeminiService.shotVideoRequest shot imageUrl
                      (App.nextImageBase64 (App.state st) shot sceneId shotId))
    as ->.
  { unfold requested_video in Hrequest.
    destruct (App.apiKeyVerified st), (App.canOpenSelectKey host),
      (App.openSelectKey host);
      simpl in Hrequest; congruence. }
  split; [by apply payload_defined|].
  unfold GeminiService.shotVideoRequest, App.nextImageBase64. simpl.
  destruct (VideoShot.useNextAsEndFrame shot); [|done].
  destruct (App.getNextShot _ _ _) as [next|] eqn:Hnext; [|done].
  destruct (JS.truthy (VideoShot.imageUrl next)); [|done].
  destruct (VideoShot.imageUrl next) as [nextUrl|] eqn:Hnext_url; [|done].
  destruct (String.eqb nextUrl EmptyString); [done|].
  intros frame [= <-]. simpl. apply payload_defined.
  eauto using reachable_image_url, getNextShot_elem_of.
Qed.

Lemma video_request_images_defined_witness :
  ∃ request,
    requested_video
      (App.handleGenerateVideo Samples.host Samples.video_not_found
         Samples.s3_drawn "A" "s2") = Some request
    ∧ is_Some (GeminiService.Frame.imageBytes
                 (GeminiService.VideoRequest.image request)).
Proof.
  eexists. split; [reflexivity|].
  refine (proj1 (video_request_images_defined Samples.host
                   Samples.video_not_found Samples.s3_drawn "A" "s2" _ _ _)).
  - apply samples_on_schema.
  - reflexivity.
Defined.

(** ** The test for a lost key *)

(** [String.append] does not simplify on its own: one step of it. *)
Ltac append_step :=
  repeat match goal with
         | |- context [String ?a ?s +:+ ?t] =>
             change (String a s +:+ t) with (String a (s +:+ t))
         | H : context [String ?a ?s +:+ ?t] |- _ =>
             change (String a s +:+ t) with (String a (s +:+ t)) in H
         | |- context [EmptyString +:+ ?t] =>
             change (EmptyString +:+ t) with t
         | H : context [EmptyString +:+ ?t] |- _ =>
             change (EmptyString +:+ t) with t in H
         end.

Lemma prefix_spec needle hay :
  String.prefix needle hay = true ↔ ∃ post, hay = needle +:+ post.
Proof.
  revert hay. induction needle as [|a needle IH]; intros hay.
  - destruct hay; simpl; (split; [intros _; by eexists|done]).
  - destruct hay as [|b hay]; simpl.
    { split; [done|]. intros [post Hpost]. append_step. done. }
    destruct (Ascii.ascii_dec a b) as [->|Hne].
    + rewrite IH. split; intros [post Hpost]; exists post; append_step;
        congruence.
    + split; [done|]. intros [post Hpost]. append_step. congruence.
Qed.

Lemma includes_spec needle hay :
  JS.includes needle hay = true ↔ ∃ pre post, hay = pre +:+ needle +:+ post.
Proof.
  induction hay as [|b hay IH].
  - change (JS.includes needle EmptyString)
      with (String.prefix needle EmptyString || false).
    rewrite orb_false_r, prefix_spec. split.
    + intros [post Hpost]. by exists EmptyString, post.
    + intros (pre & post & Hpre). destruct pre; append_step; [by exists post|done].
  - change (JS.includes needle (String b hay))
      with (String.prefix needle (String b hay) || JS.includes needle hay).
    rewrite orb_true_iff, prefix_spec, IH. split.
    + intros [[post Hpost]|(pre & post & Hpre)].
      * by exists EmptyString, post.
      * exists (String b pre), post. append_step. by rewrite Hpre.
    + intros (pre & post & Hpre). destruct pre as [|c pre]; append_step.
      * left. by exists post.
      * right. exists pre, post. congruence.
Qed.

(** X17: a failed video generation is taken for a lost key exactly when its
    error has a message in which 'Requested entity was not found' or '404'
    occurs somewhere; an error without message is never taken for one. *)
Theorem keyVerificationLost_spec message :
  App.keyVerificationLost message = true ↔
  ∃ m pre post,
    message = Some m
    ∧ (m = pre +:+ "Requested entity was not found" +:+ post
       ∨ m = pre +:+ "404" +:+ post).
Proof.
  unfold App.keyVerificationLost. destruct message as [m|].
  - rewrite orb_true_iff, !includes_spec. split.
    + intros [(pre & post & ->)|(pre & post & ->)]; eexists _, pre, post; eauto.
    + intros (m' & pre & post & Hm & Hocc). injection Hm as <-.
      destruct Hocc as [-> | ->]; [left|right]; eauto.
  - split; [done|]. by intros (m & pre & post & ? & _).
Qed.




(** ** Identifiers drawn by [planScenes] *)

Lemma idOrFresh_calls randomId id calls :
  snd (GeminiService.idOrFresh randomId id calls) = (calls + omitted id)%nat.
Proof.
  unfold GeminiService.idOrFresh, GeminiService.fresh, GeminiService.ret,
    omitted, JS.truthy.
  destruct id as [s|]; simpl; [|lia].
  destruct (String.eqb s EmptyString); simpl; lia.
Qed.

Lemma mapG_calls {A B} (f : A → GeminiService.Gen B) (w : A → nat) :
  (∀ a calls, snd (f a calls) = (calls + w a)%nat) →
  ∀ arr calls,
    snd (GeminiService.mapG f arr calls) = (calls + sum_list (w <$> arr))%nat.
Proof.
  intros Hf arr. induction arr as [|a arr IH]; intros calls; [simpl; lia|].
  rewrite fmap_cons.
  change (sum_list (w a :: (w <$> arr))) with (w a + sum_list (w <$> arr))%nat.
  simpl. unfold GeminiService.bind.
  pose proof (Hf a calls) as Ha. destruct (f a calls) as [b calls1].
  pose proof (IH calls1) as Hrest.
  destruct (GeminiService.mapG f arr calls1) as [bs calls2].
  simpl in Ha, Hrest |- *. lia.
Qed.

Lemma planShot_calls randomId videoMode raw calls :
  snd (GeminiService.planShot randomId videoMode raw calls)
  = (calls + omitted (GeminiService.RawShot.id raw))%nat.
Proof.
  unfold GeminiService.planShot, GeminiService.bind.
  pose proof (idOrFresh_calls randomId (GeminiService.RawShot.id raw) calls) as Hid.
  by destruct (GeminiService.idOrFresh _ _ calls).
Qed.

Lemma planScene_calls randomId videoMode raw calls :
  snd (GeminiService.planScene randomId videoMode raw calls)
  = (calls + omitted_in_scene raw)%nat.
Proof.
  unfold GeminiService.planScene, GeminiService.bind, omitted_in_scene.
  pose proof (idOrFresh_calls randomId (GeminiService.RawScene.id raw) calls) as Hid.
  destruct (GeminiService.idOrFresh _ _ calls) as [id calls1].
  pose proof (mapG_calls _ (omitted ∘ GeminiService.RawShot.id)
                (planShot_calls randomId videoMode)
                (default [] (GeminiService.RawScene.shots raw)) calls1) as Hshots.
  destruct (GeminiService.mapG _ _ calls1) as [shots calls2].
  simpl in *. lia.
Qed.

(** X18: [planScenes] calls [Math.random] exactly once for every scene and
    shot identifier that the upstream elements it evaluates leave out (or
    leave empty): all elements of a response that is mapped to the end, the
    elements reached before the throw when the callback of the map throws;
    and not at all when the request is rejected, the answer is empty or its
    text cannot be parsed into a scene array. *)
Theorem planScenes_draws randomId response analysis calls :
  snd (GeminiService.planScenes randomId response analysis calls)
  = (calls + match response with
             | GeminiService.PlanData raws => omitted_ids raws
             | GeminiService.PlanThrows mapped _ => omitted_ids mapped
             | _ => 0
             end)%nat.
Proof.
  assert (∀ raws,
            snd (GeminiService.mapScenes randomId analysis raws calls)
            = (calls + omitted_ids raws)%nat) as Hscenes.
  { intros raws. unfold GeminiService.mapScenes.
    apply (mapG_calls _ omitted_in_scene
             (planScene_calls randomId
                (VisualIdentity.videoMode (ProjectAnalysis.visualIdentity analysis)))). }
  destruct response as [m| |m|mapped m|raws]; simpl; try lia.
  - unfold GeminiService.bind. specialize (Hscenes mapped).
    by destruct (GeminiService.mapScenes randomId analysis mapped calls).
  - unfold GeminiService.bind. specialize (Hscenes raws).
    by destruct (GeminiService.mapScenes randomId analysis raws calls).
Qed.

Lemma mapG_agree {A B} (f g : A → GeminiService.Gen B) (arr : list A) :
  Forall (λ a, ∀ m n, fst (f a m) = fst (g a n)) arr →
  ∀ m n, fst (GeminiService.mapG f arr m) = fst (GeminiService.mapG g arr n).
Proof.
  induction 1 as [|a arr Ha _ IH]; intros m n; simpl; [done|].
  unfold GeminiService.bind.
  pose proof (Ha m n) as Hhead.
  destruct (f a m) as [b m1], (g a n) as [c n1].
  pose proof (IH m1 n1) as Hrest.
  destruct (GeminiService.mapG f arr m1) as [bs m2],
    (GeminiService.mapG g arr n1) as [cs n2].
  simpl in *. congruence.
Qed.

Lemma sum_list_zero (ns : list nat) :
  sum_list ns = 0%nat → Forall (λ n, n = 0%nat) ns.
Proof.
  induction ns as [|n ns IH]; simpl; [constructor|].
  intros Hsum. constructor; [lia|]. apply IH. lia.
Qed.

Lemma idOrFresh_agree r1 r2 id m n :
  omitted id = 0%nat →
  fst (GeminiService.idOrFresh r1 id m) = fst (GeminiService.idOrFresh r2 id n).
Proof.
  unfold omitted, GeminiService.idOrFresh, JS.truthy.
  destruct id as [s|]; simpl; [|done].
  by destruct (String.eqb s EmptyString).
Qed.

Lemma planShot_agree r1 r2 videoMode raw m n :
  omitted (GeminiService.RawShot.id raw) = 0%nat →
  fst (GeminiService.planShot r1 videoMode raw m)
  = fst (GeminiService.planShot r2 videoMode raw n).
Proof.
  intros Hid. unfold GeminiService.planShot, GeminiService.bind.
  pose proof (idOrFresh_agree r1 r2 _ m n Hid) as Hids.
  destruct (GeminiService.idOrFresh r1 _ m), (GeminiService.idOrFresh r2 _ n).
  simpl in *. congruence.
Qed.

Lemma planScene_agree r1 r2 videoMode raw m n :
  omitted_in_scene raw = 0%nat →
  fst (GeminiService.planScene r1 videoMode raw m)
  = fst (GeminiService.planScene r2 videoMode raw n).
Proof.
  unfold omitted_in_scene. intros Hraw.
  assert (omitted (GeminiService.RawScene.id raw) = 0%nat) as Hid by lia.
  assert (sum_list (omitted ∘ GeminiService.RawShot.id
                    <$> default [] (GeminiService.RawScene.shots raw)) = 0%nat)
    as Hshots by lia.
  unfold GeminiService.planScene, GeminiService.bind.
  pose proof (idOrFresh_agree r1 r2 _ m n Hid) as Hids.
  destruct (GeminiService.idOrFresh r1 _ m) as [id1 m1],
    (GeminiService.idOrFresh r2 _ n) as [id2 n1].
  assert (fst (GeminiService.mapG (GeminiService.planShot r1 videoMode)
                 (default [] (GeminiService.RawScene.shots raw)) m1)
          = fst (GeminiService.mapG (GeminiService.planShot r2 videoMode)
                   (default [] (GeminiService.RawScene.shots raw)) n1)) as Hplanned.
  { apply mapG_agree. apply sum_list_zero in Hshots.
    rewrite Forall_fmap in Hshots.
    eapply Forall_impl; [exact Hshots|]. intros rawShot Hshot p q.
    by apply planShot_agree. }
  destruct (GeminiService.mapG _ _ m1), (GeminiService.mapG _ _ n1).
  simpl in *. congruence.
Qed.

(** X19: when the upstream response names every scene and every shot, the
    plan does not depend on the random draws: two runs of [planScenes] on
    the same response give the same timeline. *)
Theorem planScenes_named_is_deterministic r1 r2 raws analysis m n :
  omitted_ids raws = 0%nat →
  fst (GeminiService.planScenes r1 (GeminiService.PlanData raws) analysis m)
  = fst (GeminiService.planScenes r2 (GeminiService.PlanData raws) analysis n).
Proof.
  intros Hnone. rewrite !planScenes_data. f_equal.
  unfold GeminiService.mapScenes. apply mapG_agree.
  apply sum_list_zero in Hnone. rewrite Forall_fmap in Hnone.
  eapply Forall_impl; [exact Hnone|]. intros raw Hraw p q.
  by apply planScene_agree.
Qed.

Lemma planScenes_named_is_deterministic_witness :
  fst (GeminiService.planScenes Samples.randomId
         (GeminiService.PlanData MoreSamples.named_plan) Samples.cinematic_analysis 0%nat)
  = fst (GeminiService.planScenes MoreSamples.tally
           (GeminiService.PlanData MoreSamples.named_plan) Samples.cinematic_analysis 7%nat).
Proof.
  apply (planScenes_named_is_deterministic Samples.randomId MoreSamples.tally
           MoreSamples.named_plan Samples.cinematic_analysis 0%nat 7%nat).
  reflexivity.
Defined.

Lemma planShots_drawn randomId videoMode raws n :
  Forall (λ raw, JS.truthy (GeminiService.RawShot.id raw) = false) raws →
  (VideoShot.id <$> fst (GeminiService.mapG
                           (GeminiService.planShot randomId videoMode) raws n))
  = (randomId <$> seq n (length raws))
  ∧ snd (GeminiService.mapG (GeminiService.planShot randomId videoMode) raws n)
    = (n + length raws)%nat.
Proof.
  intros Hraws. revert n.
  induction Hraws as [|raw raws Hraw _ IH]; intros n; simpl; [split; [done|lia]|].
  unfold GeminiService.bind, GeminiService.planShot at 1 3,
    GeminiService.idOrFresh, GeminiService.fresh, GeminiService.ret.
  unfold JS.truthy in Hraw.
  destruct (IH (S n)) as [Hids Hcalls].
  destruct (GeminiService.RawShot.id raw) as [s|].
  - destruct (String.eqb s EmptyString); [|done]. simpl.
    destruct (GeminiService.mapG _ raws (S n)) as [shots n']. simpl in *.
    split; [f_equal; exact Hids|lia].
  - simpl. destruct (GeminiService.mapG _ raws (S n)) as [shots n']. simpl in *.
    split; [f_equal; exact Hids|lia].
Qed.

Lemma mapScenes_drawn randomId videoMode raws n :
  Forall (λ raw, Forall (λ rawShot,
                           JS.truthy (GeminiService.RawShot.id rawShot) = false)
                   (default [] (GeminiService.RawScene.shots raw))) raws →
  ∃ ks,
    (VideoShot.id <$> flatten (fst (GeminiService.mapG
                                      (GeminiService.planScene randomId videoMode)
                                      raws n)))
    = (randomId <$> ks)
    ∧ NoDup ks
    ∧ Forall (λ k, (n ≤ k)%nat) ks.
Proof.
  intros Hraws. revert n.
  induction Hraws as [|raw raws Hraw _ IH]; intros n; simpl.
  { exists []. split_and!; [done|constructor|constructor]. }
  unfold GeminiService.bind, GeminiService.planScene at 1.
  unfold GeminiService.bind.
  pose proof (idOrFresh_calls randomId (GeminiService.RawScene.id raw) n) as Hid.
  destruct (GeminiService.idOrFresh _ _ n) as [id n1].
  destruct (planShots_drawn randomId videoMode _ n1 Hraw) as [Hids Hcalls].
  destruct (GeminiService.mapG (GeminiService.planShot _ _) _ n1) as [shots n2].
  destruct (IH n2) as (ks & Hks & Hnodup & Hrange).
  unfold GeminiService.ret at 1.
  destruct (GeminiService.mapG (GeminiService.planScene _ _) raws n2)
    as [scenes n3].
  unfold GeminiService.ret.
  cbn [fst snd] in *.
  exists (seq n1 (length (default [] (GeminiService.RawScene.shots raw))) ++ ks).
  rewrite flatten_cons, !fmap_app. cbn [VideoScene.shots]. split_and!.
  - by rewrite Hids, Hks.
  - apply NoDup_app. split_and!; [apply NoDup_seq| |done].
    intros k Hk%elem_of_seq Hk'. rewrite Forall_forall in Hrange.
    specialize (Hrange k Hk'). lia.
  - apply Forall_app. split.
    + apply Forall_forall. intros k Hk%elem_of_seq. lia.
    + eapply Forall_impl; [exact Hrange|]. intros k Hk. simpl in Hk. lia.
Qed.

(** X20: when the upstream response leaves out the identifier of every shot
    and the random draws are pairwise distinct, the shots of the planned
    timeline have pairwise distinct identifiers. *)
Theorem planScenes_drawn_ids_unique randomId analysis raws calls :
  Inj (=) (=) randomId →
  (∀ raw rawShot,
     raw ∈ raws →
     rawShot ∈ default [] (GeminiService.RawScene.shots raw) →
     JS.truthy (GeminiService.RawShot.id rawShot) = false) →
  ∃ scenes,
    fst (GeminiService.planScenes randomId (GeminiService.PlanData raws)
           analysis calls) = Resolved scenes
    ∧ unique_shot_ids scenes.
Proof.
  intros Hinj Hraws. eexists. split; [apply planScenes_data|].
  unfold unique_shot_ids, GeminiService.mapScenes.
  destruct (mapScenes_drawn randomId
              (VisualIdentity.videoMode (ProjectAnalysis.visualIdentity analysis))
              raws calls) as (ks & -> & Hnodup & _).
  - apply Forall_forall. intros raw Hraw. apply Forall_forall. eauto.
  - by apply NoDup_fmap_2.
Qed.

Lemma tally_inj : Inj (=) (=) MoreSamples.tally.
Proof.
  intros j. induction j as [|j IH]; intros [|k] Heq; simpl in Heq;
    try done. f_equal. apply IH. congruence.
Qed.

Lemma planScenes_drawn_ids_unique_witness :
  ∃ scenes,
    fst (GeminiService.planScenes MoreSamples.tally
           (GeminiService.PlanData MoreSamples.anonymous_plan)
           Samples.cinematic_analysis 0%nat) = Resolved scenes
    ∧ unique_shot_ids scenes.
Proof.
  apply (planScenes_drawn_ids_unique MoreSamples.tally Samples.cinematic_analysis
           MoreSamples.anonymous_plan 0%nat).
  - exact tally_inj.
  - intros raw rawShot Hraw Hshot.
    unfold MoreSamples.anonymous_plan in Hraw.
    set_unfold. destruct_or!; subst; simpl in Hshot; set_unfold;
      destruct_or!; subst; reflexivity.
Defined.

(** ** Upload and planning at the level of the handlers *)

Lemma or_else_nonempty a b : b ≠ EmptyString → JS.or_else a b ≠ EmptyString.
Proof.
  intros Hb. destruct a as [s|]; simpl; [|done].
  by destruct (String.eqb_spec s EmptyString).
Qed.

Lemma truthy_nonempty s : s ≠ EmptyString → JS.truthy (Some s) = true.
Proof. intros Hs. simpl. by apply negb_true_iff, String.eqb_neq. Qed.

(** X21: a plan that cannot be produced keeps the project.  When
    [planScenes] rejects (the request fails, the answer is empty or it does
    not parse), a run of [handleRegenerateStructure] leaves the timeline, the
    analysis, the audio and the key verification as they were; with an
    uploaded file the project-level message becomes the failure message, and
    without one the handler does nothing at all. *)
Theorem failed_regeneration_keeps_project
    randomId calls response st updatedAnalysis message :
  fst (GeminiService.planScenes randomId response updatedAnalysis calls)
  = Rejected message →
  App.run st
    (App.handleRegenerateStructure randomId calls response st updatedAnalysis)
  = App.mkState (App.state st) (App.apiKeyVerified st)
      match App.ProjectState.audioFile (App.state st) with
      | Some _ => Some ("Failed to regenerate structure: "
                        +:+ JS.interpolate message)
      | None => App.error st
      end.
Proof.
  intros Hplan. unfold App.handleRegenerateStructure.
  destruct st as [project verified message0]. simpl in *.
  destruct (App.ProjectState.audioFile project); [|done].
  by rewrite Hplan.
Qed.

Lemma failed_regeneration_keeps_project_witness :
  App.ProjectState.scenes
    (App.state
       (App.run Samples.s3_drawn
          (App.handleRegenerateStructure Samples.randomId 0
             GeminiService.PlanNoText Samples.s3_drawn Samples.montage_analysis)))
  = App.ProjectState.scenes (App.state Samples.s3_drawn).
Proof.
  rewrite (failed_regeneration_keeps_project Samples.randomId 0
             GeminiService.PlanNoText Samples.s3_drawn Samples.montage_analysis
             (Some "Failed to plan scenes")); reflexivity.
Defined.

Lemma mapScenes_planned_from randomId analysis raws calls :
  Forall2
    (λ raw scene,
       Forall2 planned_from (default [] (GeminiService.RawScene.shots raw))
         (VideoScene.shots scene))
    raws (fst (GeminiService.mapScenes randomId analysis raws calls)).
Proof.
  unfold GeminiService.mapScenes. apply mapG_Forall2. intros raw n.
  unfold GeminiService.planScene, GeminiService.bind.
  destruct (GeminiService.idOrFresh _ _ n) as [id n1].
  assert (∀ rawShot k,
            planned_from rawShot
              (fst (GeminiService.planShot randomId
                      (VisualIdentity.videoMode
                         (ProjectAnalysis.visualIdentity analysis))
                      rawShot k))) as Hshot.
  { intros rawShot k. unfold GeminiService.planShot, GeminiService.bind.
    by destruct (GeminiService.idOrFresh _ _ k). }
  pose proof (mapG_Forall2 _ planned_from Hshot
                (default [] (GeminiService.RawScene.shots raw)) n1) as Hshots.
  by destruct (GeminiService.mapG _ _ n1) as [shots n2].
Qed.

(** X22: a new plan replaces the whole timeline.  With an uploaded file and
    a parsed upstream response, a run of [handleRegenerateStructure] clears
    the project-level message, stores the analysis it was given, keeps the
    audio, and leaves a timeline with one scene per upstream scene and one
    shot per upstream shot, in which every shot has both statuses [IDLE] and
    the [imageUrl], the [videoUrl] and the [error] of its upstream shot:
    nothing of the earlier timeline survives, and when the response keeps to
    the response schema no shot has an image, a clip or an error. *)
Theorem regeneration_discards_generated_media
    randomId calls raws st updatedAnalysis file :
  App.ProjectState.audioFile (App.state st) = Some file →
  let st' :=
    App.run st
      (App.handleRegenerateStructure randomId calls (GeminiService.PlanData raws)
         st updatedAnalysis) in
  App.error st' = None
  ∧ App.ProjectState.analysis (App.state st') = Some updatedAnalysis
  ∧ App.ProjectState.audioFile (App.state st') = Some file
  ∧ App.ProjectState.audioUrl (App.state st')
    = App.ProjectState.audioUrl (App.state st)
  ∧ Forall2
      (λ raw scene,
         Forall2 planned_from (default [] (GeminiService.RawScene.shots raw))
           (VideoScene.shots scene))
      raws (App.ProjectState.scenes (App.state st'))
  ∧ (scenes_on_schema raws →
     Forall (λ scene, Forall as_planned (VideoScene.shots scene))
       (App.ProjectState.scenes (App.state st'))).
Proof.
  intros Hfile. unfold App.handleRegenerateStructure.
  rewrite Hfile, planScenes_data. simpl. split_and!; try done.
  - apply mapScenes_planned_from.
  - apply mapScenes_as_planned.
Qed.

Lemma regeneration_discards_generated_media_witness :
  Forall (λ scene, Forall as_planned (VideoScene.shots scene))
    (App.ProjectState.scenes
       (App.state
          (App.run Samples.s3_drawn
             (App.handleRegenerateStructure Samples.randomId 0
                (GeminiService.PlanData MoreSamples.named_plan)
                Samples.s3_drawn Samples.cinematic_analysis)))).
Proof.
  refine (proj2 (proj2 (proj2 (proj2 (proj2
            (regeneration_discards_generated_media Samples.randomId 0
               MoreSamples.named_plan Samples.s3_drawn
               Samples.cinematic_analysis "song.mp3" _))))) _).
  - reflexivity.
  - repeat constructor.
Defined.

(** X23: what an upload leaves behind.  A run of [handleFileUpload] always
    stores the file and its object URL and never touches the key
    verification.  When the analysis of the audio resolves, the message is
    cleared, the timeline is empty and the stored analysis holds the concept,
    montage mode, no hero image and three non-empty style fields (the
    upstream suggestion or the default); when it rejects, the project-level
    message is a non-empty text, and the analysis and the timeline of the
    earlier project stay in place beside the new file. *)
Theorem upload_outcome file audioUrl concept st :
  let st' := App.run st (App.handleFileUpload file audioUrl concept) in
  App.ProjectState.audioFile (App.state st') = Some file
  ∧ App.ProjectState.audioUrl (App.state st') = Some audioUrl
  ∧ App.apiKeyVerified st' = App.apiKeyVerified st
  ∧ match concept with
    | Resolved c =>
        App.error st' = None
        ∧ App.ProjectState.scenes (App.state st') = []
        ∧ ∃ analysis,
            App.ProjectState.analysis (App.state st') = Some analysis
            ∧ ProjectAnalysis.concept analysis = c
            ∧ VisualIdentity.videoMode (ProjectAnalysis.visualIdentity analysis)
              = montage
            ∧ VisualIdentity.heroImage (ProjectAnalysis.visualIdentity analysis)
              = None
            ∧ VisualIdentity.styleDescription
                (ProjectAnalysis.visualIdentity analysis) ≠ EmptyString
            ∧ VisualIdentity.characterSheet
                (ProjectAnalysis.visualIdentity analysis) ≠ EmptyString
            ∧ VisualIdentity.colorPalette
                (ProjectAnalysis.visualIdentity analysis) ≠ EmptyString
    | Rejected message =>
        JS.truthy (App.error st') = true
        ∧ App.ProjectState.analysis (App.state st')
          = App.ProjectState.analysis (App.state st)
        ∧ App.ProjectState.scenes (App.state st')
          = App.ProjectState.scenes (App.state st)
    end.
Proof.
  destruct concept as [message|c]; simpl; split_and!; try done.
  - by apply truthy_nonempty, or_else_nonempty.
  - eexists. split; [done|]. simpl. split_and!; try done.
    + by apply or_else_nonempty.
    + apply or_else_nonempty. cbv [String.append]. discriminate.
    + by apply or_else_nonempty.
Qed.

(** ** The storyboard's lookup *)

(** X24: [getRelativeShots] returns a pair of neighbours exactly when the
    scene index is an index of the timeline, whatever the shot index is; for
    any other scene index it fails on the missing scene. *)
Theorem getRelativeShots_defined scenes sceneIdx shotIdx :
  is_Some (Storyboard.getRelativeShots scenes sceneIdx shotIdx)
  ↔ 0 ≤ sceneIdx < JS.len scenes.
Proof.
  assert (∀ i, is_Some (JS.get scenes i) ↔ 0 ≤ i < JS.len scenes) as Hget.
  { intros i. unfold JS.get, JS.len. destruct (Z.ltb_spec i 0).
    - split; [by intros [? ?]|lia].
    - rewrite lookup_lt_is_Some. lia. }
  unfold Storyboard.getRelativeShots. split.
  - intros Hsome. apply Hget.
    destruct (JS.get scenes sceneIdx); [eauto|]. by destruct Hsome.
  - intros Hrange. destruct (proj2 (Hget sceneIdx) Hrange) as [scene ->]. simpl.
    destruct (JS.get (VideoScene.shots scene) (shotIdx - 1)); simpl; [eauto|].
    destruct (Z.ltb_spec 0 sceneIdx); simpl; [|eauto].
    destruct (proj2 (Hget (sceneIdx - 1))) as [prev ->]; [lia|]. simpl. eauto.
Qed.

Lemma relative_shots_resolved st i j shot sceneId :
  every_scene_has_a_shot (App.ProjectState.scenes st) →
  unique_shot_ids (App.ProjectState.scenes st) →
  shot_at (App.ProjectState.scenes st) i j = Some shot →
  Storyboard.getRelativeShots (App.ProjectState.scenes st) (Z.of_nat i) (Z.of_nat j)
  = Some (App.getPreviousShot st sceneId (VideoShot.id shot),
          App.getNextShot st sceneId (VideoShot.id shot)).
Proof.
  intros Hne Hnd Hshot.
  pose proof (flatten_lookup_shot _ _ _ _ Hshot) as Hflat.
  unfold shot_at in Hshot.
  destruct (App.ProjectState.scenes st !! i) as [scene|] eqn:Hi;
    simpl in Hshot; [|done].
  pose proof (lookup_lt_Some _ _ _ Hshot) as Hj.
  rewrite (getRelativeShots_at _ _ _ _ Hi).
  rewrite (getNextShot_at _ _ _ _ Hnd Hflat), (getPreviousShot_at _ _ _ _ Hnd Hflat).
  rewrite (predecessor_in_flatten _ _ _ _ Hi Hj), (successor_in_flatten _ _ _ _ Hi Hj).
  rewrite (first_after_scene _ _ Hne).
  rewrite (last_before_scene _ _ Hne) by (apply lookup_lt_Some in Hi; lia).
  do 2 f_equal. destruct j as [|j']; [done|].
  destruct (lookup_lt_is_Some_2 (VideoScene.shots scene) j') as [prev ->]; [lia|done].
Qed.

(** X25: the shot card shows what the requests will use.  In a timeline
    where every scene has a shot and shot identifiers are unique, for the
    shot at position [(i, j)] the Prev Shot thumbnail of the card is the
    [prevShotUrl] that [handleGenerateImage] computes for that shot, the End
    Frame preview is the [nextImageBase64] that [handleGenerateVideo]
    computes, and an end frame is computed exactly when the shot asks for it
    and the card can chain. *)
Theorem previews_match_requests st analysis i j shot sceneId prevShot nextShot :
  every_scene_has_a_shot (App.ProjectState.scenes st) →
  unique_shot_ids (App.ProjectState.scenes st) →
  shot_at (App.ProjectState.scenes st) i j = Some shot →
  Storyboard.getRelativeShots (App.ProjectState.scenes st) (Z.of_nat i) (Z.of_nat j)
  = Some (prevShot, nextShot) →
  ShotCard.prevShotImage analysis prevShot
  = App.prevShotUrl st analysis sceneId (VideoShot.id shot)
  ∧ ShotCard.endFrameImage shot nextShot
    = App.nextImageBase64 st shot sceneId (VideoShot.id shot)
  ∧ (is_Some (App.nextImageBase64 st shot sceneId (VideoShot.id shot))
     ↔ VideoShot.useNextAsEndFrame shot = true ∧ ShotCard.canChain nextShot = true).
Proof.
  intros Hne Hnd Hshot Hcard.
  rewrite (relative_shots_resolved st i j shot sceneId Hne Hnd Hshot) in Hcard.
  injection Hcard as <- <-.
  unfold ShotCard.prevShotImage, ShotCard.endFrameImage, ShotCard.canChain,
    ShotCard.imageUrlOf, App.prevShotUrl, App.nextImageBase64.
  destruct (App.getPreviousShot st sceneId (VideoShot.id shot)) as [prev|],
    (App.getNextShot st sceneId (VideoShot.id shot)) as [next|]; simpl;
    destruct (VideoShot.useNextAsEndFrame shot); simpl;
    rewrite ?andb_false_r; split_and!; try done;
    try (split; [by intros [? ?]|by intros [? ?]]).
  all: destruct (JS.truthy (VideoShot.imageUrl next)) eqn:Hnext; simpl;
    split; try done; try (by intros [? ?]);
    intros _; by apply truthy_is_Some.
Qed.

Lemma previews_match_requests_witness :
  ShotCard.endFrameImage Samples.S2 (Some Samples.S3)
  = App.nextImageBase64 (project_of Samples.two_scenes) Samples.S2 "A" "s2".
Proof.
  refine (proj1 (proj2 (previews_match_requests (project_of Samples.two_scenes)
                          Samples.cinematic_analysis 0 1 Samples.S2 "A"
                          (Some Samples.S1) (Some Samples.S3) _ _ _ _))).
  - repeat constructor; discriminate.
  - apply (bool_decide_unpack _). vm_compute. reflexivity.
  - reflexivity.
  - reflexivity.
Defined.

(** X26: while a generation is in flight the card of its shot is locked.
    After the [updateShot] call that opens an image or a video generation,
    every shot that carries the handler's identifiers has both of its
    buttons disabled. *)
Theorem buttons_disabled_while_generating
    sceneId shotId loading prev scene shot :
  loading = App.imageLoading ∨ loading = App.videoLoading →
  scene ∈ App.ProjectState.scenes (App.updateShot sceneId shotId loading prev) →
  shot ∈ VideoScene.shots scene →
  VideoScene.id scene = sceneId →
  VideoShot.id shot = shotId →
  Storyboard.generateImageDisabled shot = true
  ∧ Storyboard.generateVideoDisabled shot = true.
Proof.
  intros Hloading Hscene Hshot Hsid Hid.
  unfold App.updateShot in Hscene. simpl in Hscene.
  apply list_elem_of_In, in_map_iff in Hscene as (scene0 & <- & _).
  destruct (decide (VideoScene.id scene0 ≠ sceneId)) as [Hne|_]; [done|].
  simpl in Hshot. apply list_elem_of_In, in_map_iff in Hshot as (shot0 & <- & _).
  destruct (decide (VideoShot.id shot0 = shotId)) as [_|Hne]; [|done].
  unfold Storyboard.generateVideoDisabled, Storyboard.generateImageDisabled,
    Storyboard.isGenerating.
  destruct Hloading as [-> | ->]; simpl; rewrite ?orb_true_r; done.
Qed.

Lemma buttons_disabled_while_generating_witness :
  Storyboard.generateImageDisabled
    (PartialShot.spread Samples.S2 App.videoLoading) = true
  ∧ Storyboard.generateVideoDisabled
      (PartialShot.spread Samples.S2 App.videoLoading) = true.
Proof.
  apply (buttons_disabled_while_generating "A" "s2" App.videoLoading
           (project_of Samples.two_scenes)
           (VideoScene.mk "A" "Verse" "00:00" "00:15" "lyrics" "narrative"
              [Samples.S1; PartialShot.spread Samples.S2 App.videoLoading])).
  - by right.
  - apply (list_elem_of_lookup_2 _ 0%nat). reflexivity.
  - apply (list_elem_of_lookup_2 _ 1%nat). reflexivity.
  - reflexivity.
  - reflexivity.
Defined.

(** ** The export view *)

Lemma filter_nil_Forall {A} (f : A → bool) (l : list A) :
  List.filter f l = [] ↔ Forall (λ x, f x = false) l.
Proof.
  induction l as [|x l IH]; simpl.
  - split; [constructor|done].
  - destruct (f x) eqn:Hx.
    + split; [done|]. intros H. inversion H. congruence.
    + rewrite IH. split; [by constructor|by inversion 1].
Qed.

(** X27: the clip manifest of the export view lists the shots in the global
    order the orchestrator resolves neighbours in, and the render button is
    disabled exactly when no shot of that order has a clip. *)
Theorem manifest_is_global_order scenes :
  ExportView.manifest scenes = App.allShots scenes
  ∧ (ExportView.renderDisabled scenes = true
     ↔ Forall (λ shot, JS.truthy (VideoShot.videoUrl shot) = false)
         (App.allShots scenes)).
Proof.
  assert (ExportView.manifest scenes = App.allShots scenes) as Heq.
  { rewrite allShots_flatten. apply flat_map_concat_map. }
  split; [done|]. unfold ExportView.renderDisabled. rewrite Heq.
  rewrite <-filter_nil_Forall. unfold JS.len. rewrite Z.eqb_eq.
  destruct (List.filter _ _) as [|x l]; [done|].
  split; [|done]. simpl length. lia.
Qed.

(** ** The chat *)

(** X28: one exchange with the director.  With an analysis in place, a run
    of [handleChatMessage] leaves the history of the handler's snapshot
    followed by the user's message and one model message whose text is never
    empty (the answer, the stock advice for an empty answer, or the
    connection error), whatever the live history was: the first update
    overwrites it with the snapshot's. *)
Theorem chat_exchange api analysis scenes snapshot live userText :
  ∃ reply,
    reply ≠ EmptyString
    ∧ foldl Chat.apply_update live
        (Chat.handleChatMessage api (Some analysis) scenes snapshot userText)
      = snapshot ++ [Chat.mkMessage Chat.user userText;
                     Chat.mkMessage Chat.model reply].
Proof.
  unfold Chat.handleChatMessage, Chat.chatWithDirector.
  destruct (api _) as [m|responseText]; simpl.
  - exists "Error connecting to AI.". split; [done|]. by rewrite <-app_assoc.
  - exists (JS.or_else responseText "I can help guide you.").
    split; [by apply or_else_nonempty|by rewrite <-app_assoc].
Qed.

(** ** The hero look *)

Lemma pushed_png parts img : img ∈ HeroLook.pushed parts → png_data_url img.
Proof.
  unfold HeroLook.pushed. rewrite list_elem_of_In, in_flat_map.
  intros (part & _ & Hin). destruct part as [data|]; [|done].
  destruct Hin as [<-|[]]. by eexists.
Qed.

(** X29: the hero look reaches every image request.  Every preview that
    [generateHeroPreviews] returns is a PNG data URL; selecting it in the
    editor enables the Next Stage button, and when its data holds no comma
    (base64 never does), every later shot image request starts with a
    reference part that carries exactly that data. *)
Theorem hero_look_reference api concept visualIdentity img :
  img ∈ HeroLook.generateHeroPreviews api concept visualIdentity →
  ∃ data,
    img = "data:image/png;base64," +:+ data
    ∧ (∀ analysis,
         HeroLook.nextStageDisabled (HeroLook.updateVisualsHeroImage img analysis)
         = false)
    ∧ (JS.includes "," data = false →
       ∀ analysis shot lyrics narrative prev,
         head (GeminiService.shotImageParts shot
                 (HeroLook.updateVisualsHeroImage img analysis)
                 lyrics narrative prev)
         = Some (GeminiService.InlineData "image/png" (Some data))).
Proof.
  unfold HeroLook.generateHeroPreviews. rewrite list_elem_of_In, in_flat_map.
  intros (variant & _ & Hin).
  destruct (api _) as [m|parts]; [done|].
  apply list_elem_of_In, pushed_png in Hin as [data ->].
  exists data. split; [done|].
  assert ("data:image/png;base64," +:+ data ≠ EmptyString) as Hurl.
  { cbv [String.append]. discriminate. }
  split.
  - intros analysis.
    unfold HeroLook.nextStageDisabled, HeroLook.updateVisualsHeroImage.
    cbn [ProjectAnalysis.visualIdentity VisualIdentity.heroImage].
    by rewrite (truthy_nonempty _ Hurl).
  - intros Hcomma analysis shot lyrics narrative prev.
    unfold GeminiService.shotImageParts, HeroLook.updateVisualsHeroImage.
    cbn [ProjectAnalysis.visualIdentity VisualIdentity.heroImage].
    rewrite (referencePart_truthy _ Hurl).
    by rewrite payload_png_data_url, (split_without_separator _ Hcomma).
Qed.

Lemma hero_look_reference_witness :
  ∃ data, "data:image/png;base64,TWO" = "data:image/png;base64," +:+ data.
Proof.
  destruct (hero_look_reference (Samples.image_of "TWO") Samples.concept
              (ProjectAnalysis.visualIdentity Samples.cinematic_analysis)
              "data:image/png;base64,TWO") as (data & Hdata & _).
  - apply (list_elem_of_lookup_2 _ 0%nat). reflexivity.
  - by exists data.
Defined.
